(** * The broadcast relay of [index.js]: AutoDJ scheduler, listener fan-out,
      live ingest and the status routes.

    Node runs the program on one thread: a request handler, a timer callback
    or the continuation of an [await] runs to its next [await] (or to its end)
    before anything else does.  The embedding follows that: the five
    module-level variables of the radio are one record, every handler is a
    function on that record, and [autoDJLoop] is cut at its [await]s into a
    control point plus a function [resume] that runs from one [await] to the
    next. *)

From Stdlib Require Import List String Ascii Bool Arith ZArith Lia.
From Stdlib Require Import Init.Byte.
From Stdlib Require Import DecimalString.
Import ListNotations.

Local Open Scope string_scope.
Local Open Scope list_scope.
Set Warnings "-register-all".

(** ** JavaScript values, as far as the program looks into them *)

Module Js.

Inductive value : Type :=
| Undefined
| Null
| Bool (b : bool)
| Num (n : Z)
| Str (s : string)
| Arr (items : list value)
| Obj (fields : list (string * value)).

(** [ToBoolean]: what [!v] and [v ? a : b] test. *)
Definition truthy (v : value) : bool :=
  match v with
  | Undefined | Null => false
  | Bool b => b
  | Num n => negb (Z.eqb n 0)
  | Str s => negb (String.eqb s EmptyString)
  | Arr _ | Obj _ => true
  end.

(** [typeof v === 'string'] *)
Definition is_string (v : value) : bool :=
  match v with Str _ => true | _ => false end.

Fixpoint assoc (k : string) (fields : list (string * value)) : value :=
  match fields with
  | [] => Undefined
  | (k', v) :: rest => if String.eqb k k' then v else assoc k rest
  end.

(** [v.k] for the keys this program reads ([rss], [channel], [item],
    [title], [enclosure], [$], [url]; none of them is a built-in member of
    an array, a string, a number or a boolean).  [None] is the [TypeError]
    of reading a member of [undefined] or [null]. *)
Definition get (v : value) (k : string) : option value :=
  match v with
  | Undefined | Null => None
  | Obj fields => Some (assoc k fields)
  | _ => Some Undefined
  end.

(** [v[0]] *)
Definition first (v : value) : option value :=
  match v with
  | Undefined | Null => None
  | Arr items => Some (List.nth 0 items Undefined)
  | Str (String c _) => Some (Str (String c EmptyString))
  | Obj fields => Some (assoc "0" fields)
  | _ => Some Undefined
  end.

End Js.

(** A member read that may raise, followed by the rest of the expression. *)
Notation "x <- e ;; k" :=
  (match e with Some x => k | None => None end)
  (at level 61, e at next level, right associativity).

(** ** Radio state *)

Definition chunk := list byte.

Record Track := mkTrack { title : Js.value; url : Js.value }.

(** A listener is the response object of one [/listen] request.  The program
    only ever calls [write] on it; what that call does belongs to the
    connection: the bytes go out, or the connection is already gone and they
    are discarded without an exception.  A response never raises when it is
    handed a Buffer; [Raises] is a sink that is not such a response, and the
    properties of the program's own listeners are stated without it. *)
Inductive WriteMode := Delivers | Discards | Raises.

Record Sink := mkSink { sid : nat; mode : WriteMode; received : list chunk }.

Inductive LogLine :=
| LogPlaying (t : Js.value)
| LogAutoDJError
| LogLoaded (n : nat)
| LogRssParseError
| LogRssError
| LogTitleUpdated (t : Js.value).

(** [listeners], [isLive], [autodjTracks], [currentAutoDJIndex], [liveTitle]
    (lines 62-66) and the console.  The cursor is a JavaScript number that
    only ever grows by one from 0; it is a [nat] here. *)
Record State := mkState {
  listeners : list Sink;
  isLive : bool;
  autodjTracks : list Track;
  currentAutoDJIndex : nat;
  liveTitle : Js.value;
  console : list LogLine
}.

Definition initial : State :=
  mkState [] false [] 0 (Js.Str EmptyString) [].

Definition set_listeners (ls : list Sink) (st : State) : State :=
  mkState ls (isLive st) (autodjTracks st) (currentAutoDJIndex st)
          (liveTitle st) (console st).

Definition set_isLive (b : bool) (st : State) : State :=
  mkState (listeners st) b (autodjTracks st) (currentAutoDJIndex st)
          (liveTitle st) (console st).

Definition set_autodjTracks (ts : list Track) (st : State) : State :=
  mkState (listeners st) (isLive st) ts (currentAutoDJIndex st)
          (liveTitle st) (console st).

Definition incr_currentAutoDJIndex (st : State) : State :=
  mkState (listeners st) (isLive st) (autodjTracks st)
          (S (currentAutoDJIndex st)) (liveTitle st) (console st).

Definition set_liveTitle (t : Js.value) (st : State) : State :=
  mkState (listeners st) (isLive st) (autodjTracks st) (currentAutoDJIndex st)
          t (console st).

Definition log (l : LogLine) (st : State) : State :=
  mkState (listeners st) (isLive st) (autodjTracks st) (currentAutoDJIndex st)
          (liveTitle st) (console st ++ [l]).

(** ** Fan-out: [listeners.forEach(r => r.write(chunk))] *)

Inductive Completion := Normal | Thrown.

Definition write (r : Sink) (c : chunk) : Sink * Completion :=
  match mode r with
  | Delivers => (mkSink (sid r) (mode r) (received r ++ [c]), Normal)
  | Discards => (r, Normal)
  | Raises => (r, Thrown)
  end.

(** [forEach] calls the callback on the elements in order and has no handler
    of its own: an exception in one call ends the iteration. *)
Fixpoint forEach_write (ls : list Sink) (c : chunk) : list Sink * Completion :=
  match ls with
  | [] => ([], Normal)
  | r :: rest =>
      match write r c with
      | (r', Thrown) => (r' :: rest, Thrown)
      | (r', Normal) =>
          let (rest', k) := forEach_write rest c in (r' :: rest', k)
      end
  end.

(** ** The AutoDJ loop (lines 91-134) *)

(** What the body of a fetched track will deliver: chunks, then the end of
    the stream or a read error. *)
Inductive stream := SEnd | SFail | SChunk (c : chunk) (rest : stream).

(** The [await] at which the loop is suspended. *)
Inductive pc :=
| Sleeping                                   (* lines 95 and 100 *)
| AwaitFetch (track : Track)                 (* line 109 *)
| AwaitChunk (track : Track) (body : stream) (* line 112, next chunk *)
| Paused (track : Track) (body : stream)     (* line 119 *)
| Closing (track : Track) (threw : bool)     (* line 112, leaving the loop early *)
| Crashed.

(** The promise the loop waits for has settled. *)
Inductive settled :=
| TimerFired
| FetchResolved (body : stream)
| FetchRejected
| ReadSettled
| ReturnSettled.

(** From the top of [while (true)] to the next [await]. *)
Definition loopHead (st : State) : pc * State :=
  if isLive st || Nat.eqb (List.length (autodjTracks st)) 0 then (Sleeping, st)
  else if Nat.eqb (List.length (listeners st)) 0 then (Sleeping, st)
  else
    match List.nth_error (autodjTracks st)
            (currentAutoDJIndex st mod List.length (autodjTracks st)) with
    | Some track => (AwaitFetch track, log (LogPlaying (title track)) st)
    | None => (Crashed, st)
    end.

(** Lines 129-132, then round the loop. *)
Definition afterTrack (trackFinished : bool) (st : State) : pc * State :=
  loopHead (if trackFinished then incr_currentAutoDJIndex st else st).

Definition resume (p : pc) (i : settled) (st : State) : option (pc * State) :=
  match p, i with
  | Sleeping, TimerFired => Some (loopHead st)
  | AwaitFetch t, FetchResolved body => Some (AwaitChunk t body, st)
  | AwaitFetch t, FetchRejected => Some (afterTrack false (log LogAutoDJError st))
  | AwaitChunk t body, ReadSettled =>
      match body with
      | SEnd => Some (afterTrack true st)
      | SFail => Some (afterTrack false (log LogAutoDJError st))
      | SChunk c rest =>
          if isLive st then Some (Closing t false, st)
          else if Nat.eqb (List.length (listeners st)) 0
          then Some (Paused t rest, st)
          else
            match forEach_write (listeners st) c with
            | (ls, Normal) => Some (AwaitChunk t rest, set_listeners ls st)
            | (ls, Thrown) => Some (Closing t true, set_listeners ls st)
            end
      end
  | Paused t rest, TimerFired => Some (AwaitChunk t rest, st)
  | Closing t threw, ReturnSettled =>
      Some (afterTrack false (if threw then log LogAutoDJError st else st))
  | _, _ => None
  end.

(** ** Catalog refresh: [loadRSS] (lines 69-84) *)

(** How the two [await]s and [parseString] came out.  [RssParsed result] is
    the call of the callback with [err] null. *)
Inductive RssOutcome :=
| RssFetchRejected
| RssTextRejected
| RssParseError
| RssParsed (result : Js.value).

(** The arrow function of lines 75-78. *)
Definition track_of_item (item : Js.value) : option Track :=
  t <- Js.get item "title" ;;
  t0 <- Js.first t ;;
  e <- Js.get item "enclosure" ;;
  e0 <- Js.first e ;;
  a <- Js.get e0 "$" ;;
  u <- Js.get a "url" ;;
  Some (mkTrack t0 u).

Fixpoint map_items (items : list Js.value) : option (list Track) :=
  match items with
  | [] => Some []
  | item :: rest =>
      t <- track_of_item item ;;
      ts <- map_items rest ;;
      Some (t :: ts)
  end.

(** [result.rss.channel[0].item.map(...)]; [None] when the expression
    raises, in which case the assignment of line 75 does not take place.
    [map] is a method of arrays only: on [undefined] and on any other value
    the call raises. *)
Definition tracks_of_result (result : Js.value) : option (list Track) :=
  rss <- Js.get result "rss" ;;
  channel <- Js.get rss "channel" ;;
  channel0 <- Js.first channel ;;
  item <- Js.get channel0 "item" ;;
  match item with
  | Js.Arr items => map_items items
  | _ => None
  end.

(** The synchronous end of [loadRSS], once its two [await]s and the parser
    are through.  An exception inside the callback leaves [parseString] and
    lands in the [catch] of line 81. *)
Definition loadRSS (o : RssOutcome) (st : State) : State :=
  match o with
  | RssFetchRejected | RssTextRejected => log LogRssError st
  | RssParseError => log LogRssParseError st
  | RssParsed result =>
      match tracks_of_result result with
      | Some tracks =>
          log (LogLoaded (List.length tracks)) (set_autodjTracks tracks st)
      | None => log LogRssError st
      end
  end.

(** ** Request handlers *)

Inductive Payload := Text (s : string) | Json (v : Js.value).

Record Response := mkResponse {
  status : nat;
  headers : list (string * string);
  payload : Payload
}.

(** What the framework gets back from a route: a response the program sent;
    an exception that left the handler; or the refusal of a body parser,
    which hands the framework an error with a status code.  The program has
    no error handler of its own: in the last two cases the framework answers
    with its own error page, which carries no header of this program. *)
Inductive HandlerResult :=
| Sent (r : Response)
| Escaped
| Refused (code : nat).

Definition message (s : string) : Payload :=
  Json (Js.Obj [("message", Js.Str s)]).

(** *** [/live] (lines 27-34 and 138-144) *)

Record Credentials := mkCredentials { name : string; pass : string }.

(** What the two body parsers on the way to the handler make of a request:
    [express.json()], mounted for every route at line 24, and
    [express.raw(...)] of line 138.  A body announced as JSON is taken by the
    first: refused with an error (400 when it does not parse, 413 when it is
    too long) or parsed, after which the second lets the request through.
    Any other body is for the second: refused above 10mb, or read into a
    Buffer.  A request with no body, or with no content type, is taken by
    neither.  Only [RawRead] leaves a Buffer in [req.body]. *)
Inductive Parsed :=
| JsonRefused (code : nat)
| JsonParsed
| RawRefused (code : nat)
| RawRead (c : chunk)
| Unparsed.

(** A POST to [/live]: [user] is what [basicAuth(req)] returns ([None] for
    [undefined]), [parsed] what the body parsers do with the request. *)
Record LiveRequest := mkLiveRequest {
  user : option Credentials;
  parsed : Parsed
}.

Definition dquote : string := String (ascii_of_nat 34) EmptyString.

Definition challenge : Response :=
  mkResponse 401
    [("WWW-Authenticate",
      ("Basic realm=" ++ dquote ++ "Authorization Required" ++ dquote)%string)]
    (Text "Authentication required").

(** [None] is the call of [next()]. *)
Definition basicAuthMiddleware (req : LiveRequest) : option Response :=
  match user req with
  | None => Some challenge
  | Some u =>
      if negb (String.eqb (name u) "supernatural")
         || negb (String.eqb (pass u) "supernatural")
      then Some challenge
      else None
  end.

Definition post_live (body : chunk) (st : State) : State * HandlerResult :=
  let st1 := set_isLive true st in
  match forEach_write (listeners st1) body with
  | (ls, Normal) => (set_listeners ls st1, Sent (mkResponse 200 [] (Text "OK")))
  | (ls, Thrown) => (set_listeners ls st1, Escaped)
  end.

(** The handler of line 140 when [req.body] is not a Buffer.  [write]
    checks its argument before anything else and raises on a value that is
    neither a string nor a Buffer, whatever the state of the connection: the
    first sink ends the iteration, and with no sink there is no call. *)
Definition post_live_unparsed (st : State) : State * HandlerResult :=
  let st1 := set_isLive true st in
  match listeners st1 with
  | [] => (st1, Sent (mkResponse 200 [] (Text "OK")))
  | _ :: _ => (st1, Escaped)
  end.

(** [express.json()] of line 24, then the chain of line 138, then the route
    of line 140. *)
Definition live (req : LiveRequest) (st : State) : State * HandlerResult :=
  match parsed req with
  | JsonRefused code => (st, Refused code)
  | p =>
      match basicAuthMiddleware req with
      | Some r => (st, Sent r)
      | None =>
          match p with
          | JsonRefused code | RawRefused code => (st, Refused code)
          | RawRead body => post_live body st
          | JsonParsed | Unparsed => post_live_unparsed st
          end
      end
  end.

(** *** [/listen] (lines 146-162) *)

Definition listen (res : Sink) (st : State) : State :=
  set_listeners (listeners st ++ [res]) st.

(** The [close] callback of the request whose response is sink [id]. *)
Definition on_close (id : nat) (st : State) : State :=
  set_listeners
    (List.filter (fun r => negb (Nat.eqb (sid r) id)) (listeners st)) st.

(** *** [/update-live-title] (lines 164-172); [body] is the object
        [express.json] leaves in [req.body]. *)
Definition update_live_title (body : list (string * Js.value)) (st : State)
  : State * Response :=
  let title := Js.assoc "title" body in
  if negb (Js.truthy title) || negb (Js.is_string title)
  then (st, mkResponse 400 [] (message "Invalid title format."))
  else (log (LogTitleUpdated title) (set_liveTitle title st),
        mkResponse 200 [] (message "Live title updated.")).

(** *** [/current-track] (lines 174-186) *)
Definition current_track (st : State) : HandlerResult :=
  if isLive st then
    if Js.truthy (liveTitle st)
    then Sent (mkResponse 200 []
                 (Json (Js.Obj [("currentTrackTitle", liveTitle st)])))
    else Sent (mkResponse 404 []
                 (message "Live stream is on, but no title set."))
  else if Nat.eqb (List.length (autodjTracks st)) 0
  then Sent (mkResponse 404 [] (message "No AutoDJ track loaded."))
  else
    match List.nth_error (autodjTracks st)
            (currentAutoDJIndex st mod List.length (autodjTracks st)) with
    | Some current =>
        Sent (mkResponse 200 []
                (Json (Js.Obj [("currentTrackTitle", title current)])))
    | None => Escaped
    end.

(** *** [/listener-stats] (lines 189-203) *)

(** [req.query.start] and [req.query.end]; [Js.Undefined] when the parameter
    is not in the query string. *)
Record StatsQuery := mkStatsQuery { q_start : Js.value; q_end : Js.value }.

(** The handler either answers at once or waits for the aggregation. *)
Inductive StatsStep :=
| Answer (r : Response)
| AwaitAggregate (gte lte : Js.value).

Definition count_json (key : string) (n : nat) : Payload :=
  Json (Js.Obj [(key, Js.Num (Z.of_nat n))]).

Definition stats_error : Response :=
  mkResponse 500 [] (Json (Js.Obj [("error", Js.Str "Error fetching stats.")])).

(** [db] is [undefined] until the database connection is up (lines 37-43);
    [db.collection] then raises inside the [try]. *)
Definition listener_stats (db : bool) (q : StatsQuery) (st : State) : StatsStep :=
  if negb (Js.truthy (q_start q)) || negb (Js.truthy (q_end q))
  then Answer (mkResponse 200 []
                 (count_json "activeListeners" (List.length (listeners st))))
  else if db then AwaitAggregate (q_start q) (q_end q)
  else Answer stats_error.

(** The aggregation settled: the distinct addresses, or a rejection. *)
Definition listener_stats_resume (uniqueIPs : option (list string)) : Response :=
  match uniqueIPs with
  | Some ips => mkResponse 200 [] (count_json "uniqueIPsCount" (List.length ips))
  | None => stats_error
  end.

(** ** The whole process *)

(** One turn of the event loop that can touch the radio state.  The other
    routes (contact form, subscribers, newsletter, checkout, static files)
    never mention the five variables. *)
Inductive event :=
| Settle (i : settled)
| PostLive (req : LiveRequest)
| GetListen (res : Sink)
| CloseListen (id : nat)
| PostUpdateLiveTitle (body : list (string * Js.value))
| GetCurrentTrack
| GetListenerStats (db : bool) (q : StatsQuery)
| RssSettled (o : RssOutcome)
| OtherRoute.

Definition Sys : Type := pc * State.

(** Line 135: the first call of [autoDJLoop] runs to its first [await]. *)
Definition boot : Sys := loopHead initial.

Definition step (e : event) (s : Sys) : option Sys :=
  let (p, st) := s in
  match e with
  | Settle i => resume p i st
  | PostLive req => Some (p, fst (live req st))
  | GetListen res => Some (p, listen res st)
  | CloseListen id => Some (p, on_close id st)
  | PostUpdateLiveTitle body => Some (p, fst (update_live_title body st))
  | GetCurrentTrack | GetListenerStats _ _ | OtherRoute => Some (p, st)
  | RssSettled o => Some (p, loadRSS o st)
  end.

Fixpoint run (es : list event) (s : Sys) : option Sys :=
  match es with
  | [] => Some s
  | e :: rest =>
      match step e s with
      | Some s' => run rest s'
      | None => None
      end
  end.

(** * Vocabulary of the properties, sample states and sample runs *)

(** The credentials are absent, or one of the two does not match. *)
Definition bad_credentials (req : LiveRequest) : Prop :=
  match user req with
  | None => True
  | Some u => name u <> "supernatural" \/ pass u <> "supernatural"
  end.

(** The push gets past lines 24 and 138 and into the handler of line 140. *)
Definition accepted (req : LiveRequest) : bool :=
  match basicAuthMiddleware req, parsed req with
  | None, (JsonParsed | RawRead _ | Unparsed) => true
  | _, _ => false
  end.

(** Three chunks of one byte each. *)
Definition x01 : chunk := [Byte.x01].
Definition x02 : chunk := [Byte.x02].
Definition x03 : chunk := [Byte.x03].

Definition one_listener : State :=
  mkState [mkSink 0 Delivers []] false [] 0 (Js.Str EmptyString) [].

(** A wrong password on a body announced as JSON that does not parse. *)
Definition wrong_password_bad_json : LiveRequest :=
  mkLiveRequest (Some (mkCredentials "supernatural" "natural"))
                (JsonRefused 400).

Definition wrong_password : LiveRequest :=
  mkLiveRequest (Some (mkCredentials "supernatural" "natural")) (RawRead x01).

(** The event is a push that reaches the handler of line 140. *)
Definition accepted_push (e : event) : bool :=
  match e with
  | PostLive req => accepted req
  | _ => false
  end.

Definition good_push : LiveRequest :=
  mkLiveRequest (Some (mkCredentials "supernatural" "supernatural"))
                (RawRead x01).

Definition no_title_set : Response :=
  mkResponse 404 [] (message "Live stream is on, but no title set.").

Definition no_track_loaded : Response :=
  mkResponse 404 [] (message "No AutoDJ track loaded.").

Definition now_playing (t : Js.value) : Response :=
  mkResponse 200 [] (Json (Js.Obj [("currentTrackTitle", t)])).

Definition trackA : Track := mkTrack (Js.Str "A") (Js.Str "https://a").
Definition trackB : Track := mkTrack (Js.Str "B") (Js.Str "https://b").

Definition title_of (body : list (string * Js.value)) : Js.value :=
  Js.assoc "title" body.

Definition empty_title : list (string * Js.value) :=
  [("title", Js.Str EmptyString)].

Definition only_start : StatsQuery :=
  mkStatsQuery (Js.Str "2024-01-01T00:00:00Z") Js.Undefined.

(** The call of [write] on the sink raises. *)
Definition raises (r : Sink) : bool :=
  match mode r with Raises => true | _ => false end.

(** The write reports a failure, by an exception or not. *)
Definition fails (r : Sink) : bool :=
  match mode r with Delivers => false | _ => true end.

(** The sink after one call of [write]. *)
Definition written (c : chunk) (r : Sink) : Sink := fst (write r c).

(** What C2 asks of one broadcast: whenever the write to a sink fails, every
    other sink that can take the chunk has taken it, the broadcast returns
    normally, and the failing sink is no longer registered. *)
Definition isolates_failures (ls : list Sink) (c : chunk) : Prop :=
  forall r, In r ls -> fails r = true ->
    (forall r', In r' ls -> sid r' <> sid r -> fails r' = false ->
                In (written c r') (fst (forEach_write ls c)))
    /\ snd (forEach_write ls c) = Normal
    /\ ~ In (sid r) (List.map sid (fst (forEach_write ls c))).

(** A sink whose connection is gone and whose [close] has not yet been
    delivered, registered before a sound one. *)
Definition dead_then_sound : list Sink :=
  [mkSink 0 Discards []; mkSink 1 Delivers []].

Definition two_listeners : State :=
  mkState dead_then_sound false [] 0 (Js.Str EmptyString) [].

(** The refresh does not get as far as the assignment of line 75. *)
Definition failed (o : RssOutcome) : Prop :=
  match o with
  | RssParsed result => tracks_of_result result = None
  | _ => True
  end.

(** The xml2js result for a feed whose channel has a title and no [item]
    element: child elements are listed under their name, and a name with no
    element has no key. *)
Definition feed_without_items : Js.value :=
  Js.Obj [("rss",
    Js.Obj [("channel",
      Js.Arr [Js.Obj [("title", Js.Arr [Js.Str "Station"])]])])].

(** The catalog [A; B], the cursor at 0, not live, one listener. *)
Definition rotation_AB : State :=
  mkState [mkSink 0 Delivers []] false [trackA; trackB] 0
          (Js.Str EmptyString) [].

(** The loop of line 112 is still iterating over the body of the track (it
    was left neither by [break] nor by an exception) and the body reports
    its end: the one place from which line 131 is reached with
    [trackFinished] true. *)
Definition ends_stream (p : pc) (i : settled) : bool :=
  match p, i with
  | AwaitChunk _ SEnd, ReadSettled => true
  | _, _ => false
  end.

(** The event is the end of a body the loop has read through. *)
Definition full_play (e : event) (s : Sys) : bool :=
  match e with
  | Settle i => ends_stream (fst s) i
  | _ => false
  end.

(** The number of full plays in a run. *)
Fixpoint full_plays (es : list event) (s : Sys) : nat :=
  match es with
  | [] => 0
  | e :: rest =>
      match step e s with
      | Some s' => (if full_play e s then 1 else 0) + full_plays rest s'
      | None => 0
      end
  end.

(** A body that delivers the given chunks and then ends. *)
Definition stream_of (body : list chunk) : stream :=
  List.fold_right SChunk SEnd body.

(** Track A is picked, its first chunk goes out, a live push arrives, the
    loop meets the second chunk and leaves. *)
Definition interrupted_by_live : list event :=
  [Settle (FetchResolved (stream_of [x01; x02; x03]));
   Settle ReadSettled;
   PostLive good_push;
   Settle ReadSettled;
   Settle ReturnSettled].

(** Track A is picked and its fetch is rejected. *)
Definition fetch_fails : list event := [Settle FetchRejected].

(** The expression of lines 104 and 183. *)
Definition pick (tracks : list Track) (cursor : nat) : option Track :=
  List.nth_error tracks (cursor mod List.length tracks).

(** The tracks of [n] successive picks, the cursor growing by one each time. *)
Fixpoint rotation (tracks : list Track) (cursor n : nat) : list Track :=
  match n with
  | 0 => []
  | S n' =>
      match pick tracks cursor with
      | Some t => t :: rotation tracks (S cursor) n'
      | None => []
      end
  end.

(** The loop may start a track: not live, a catalog, a listener; and no
    registered sink raises on [write]. *)
Record eligible (st : State) : Prop := {
  not_live : isLive st = false;
  has_tracks : autodjTracks st <> [];
  has_listener : listeners st <> [];
  no_raise : Forall (fun r => raises r = false) (listeners st)
}.

(** One track played with nothing else happening: the fetch resolves, every
    chunk is read, then the end of the body. *)
Definition play_events (body : list chunk) : list event :=
  Settle (FetchResolved (stream_of body))
  :: List.repeat (Settle ReadSettled) (S (List.length body)).

(** The sinks after the chunks of [body] were written to each of them. *)
Definition heard (body : list chunk) (ls : list Sink) : list Sink :=
  List.fold_left (fun ls c => List.map (written c) ls) body ls.

(** The listener hears the first chunk of track A and leaves; the second
    chunk comes up; another listener arrives during the sleep; the loop
    wakes up and reads on to the end of the body. *)
Definition listener_away : list event :=
  [Settle (FetchResolved (stream_of [x01; x02; x03]));
   Settle ReadSettled;
   CloseListen 0;
   Settle ReadSettled;
   GetListen (mkSink 1 Delivers []);
   Settle TimerFired;
   Settle ReadSettled;
   Settle ReadSettled].

(** * Vocabulary of the further properties *)

(** The event is a step of the loop itself. *)
Definition is_settle (e : event) : bool :=
  match e with
  | Settle _ => true
  | _ => false
  end.

(** The number of steps of the loop in a run. *)
Definition settles (es : list event) : nat :=
  List.length (List.filter is_settle es).

(** The run without the steps of the loop: the handlers alone. *)
Definition handlers_only (es : list event) : list event :=
  List.filter (fun e => negb (is_settle e)) es.

(** How many of its own steps the loop is from its sleep at most, once
    [isLive] is true. *)
Definition rank (p : pc) : nat :=
  match p with
  | Sleeping | Crashed => 0
  | Closing _ _ => 1
  | AwaitChunk _ _ => 2
  | AwaitFetch _ | Paused _ _ => 3
  end.

(** The loop is waiting for the fetch of a track. *)
Definition fetching (p : pc) : bool :=
  match p with
  | AwaitFetch _ => true
  | _ => false
  end.

(** Two states that listeners, publishers and status queries cannot tell
    apart: they differ at most in the cursor and the console. *)
Definition same_broadcast (st1 st2 : State) : Prop :=
  listeners st1 = listeners st2
  /\ isLive st1 = isLive st2
  /\ liveTitle st1 = liveTitle st2
  /\ autodjTracks st1 = autodjTracks st2.

(** The event connects or disconnects a listener. *)
Definition changes_members (e : event) : bool :=
  match e with
  | GetListen _ | CloseListen _ => true
  | _ => false
  end.

(** The chunks of the pushes of a run that reach the handler of line 140
    with a Buffer, in the order of the pushes. *)
Definition pushed (es : list event) : list chunk :=
  List.flat_map
    (fun e =>
       match e with
       | PostLive req =>
           match parsed req with
           | RawRead body => if accepted req then [body] else []
           | _ => []
           end
       | _ => []
       end) es.

(** The sink with the chunks [bs] added to what it had received, when its
    connection takes them. *)
Definition extended (bs : list chunk) (r : Sink) : Sink :=
  match mode r with
  | Delivers => mkSink (sid r) (mode r) (received r ++ bs)
  | _ => r
  end.

(** Live, track A half read, one listener. *)
Definition live_mid_track : Sys :=
  (AwaitChunk trackA (stream_of [x02]),
   mkState [mkSink 0 Delivers [x01]] true [trackA; trackB] 0
           (Js.Str "Sunday") [LogPlaying (Js.Str "A")]).

(** The loop meets the next chunk and leaves the track; a push arrives in
    between. *)
Definition push_between_steps : list event :=
  [Settle ReadSettled; PostLive good_push; Settle ReturnSettled].

(** What connects and disconnects alone do to the list of registered ids. *)
Definition member_step (ids : list nat) (e : event) : list nat :=
  match e with
  | GetListen res => ids ++ [sid res]
  | CloseListen id => List.filter (fun i => negb (Nat.eqb i id)) ids
  | _ => ids
  end.

Definition members (es : list event) (ids : list nat) : list nat :=
  List.fold_left member_step es ids.

(** Every response object that connects in the run is a new one: its id is
    not registered at that moment. *)
Fixpoint fresh_listens (es : list event) (ids : list nat) : Prop :=
  match es with
  | [] => True
  | e :: rest =>
      match e with
      | GetListen res => ~ In (sid res) ids
      | _ => True
      end
      /\ fresh_listens rest (member_step ids e)
  end.

(** A body that delivers the given chunks and then goes on as [tail]. *)
Definition stream_then (body : list chunk) (tail : stream) : stream :=
  List.fold_right SChunk tail body.

(** The first [n] chunks of a body come up one after the other. *)
Definition reads (n : nat) : list event := List.repeat (Settle ReadSettled) n.

(** [n] chunks come up with nobody listening, each followed by the sleep of
    line 119. *)
Definition sleeps (n : nat) : list event :=
  List.concat (List.repeat [Settle ReadSettled; Settle TimerFired] n).

(** A listener connects, and one disconnects, in the middle of a run. *)
Definition comings_and_goings : list event :=
  [GetListen (mkSink 1 Delivers []);
   Settle (FetchResolved (stream_of [x01]));
   Settle ReadSettled;
   CloseListen 0;
   PostLive good_push].

(** The catalog after a run, as the refreshes alone decide it: each refresh
    that gets as far as the assignment of line 75 replaces it whole. *)
Definition catalog_step (ts : list Track) (e : event) : list Track :=
  match e with
  | RssSettled (RssParsed result) =>
      match tracks_of_result result with
      | Some ts' => ts'
      | None => ts
      end
  | _ => ts
  end.

Definition catalog_after (es : list event) (ts : list Track) : list Track :=
  List.fold_left catalog_step es ts.

(** What xml2js makes of an [<item>] with one [<title>] and one
    [<enclosure url=...>]: child elements are arrays under their name,
    attributes are under [$]. *)
Definition feed_item (t : Track) : Js.value :=
  Js.Obj [("title", Js.Arr [title t]);
          ("enclosure", Js.Arr [Js.Obj [("$", Js.Obj [("url", url t)])]])].

(** A parsed feed whose first channel has the given items. *)
Definition feed_with (station : string) (items : list Js.value) : Js.value :=
  Js.Obj [("rss",
    Js.Obj [("channel",
      Js.Arr [Js.Obj [("title", Js.Arr [Js.Str station]);
                      ("item", Js.Arr items)]])])].

(** An item with a title and no enclosure. *)
Definition item_without_enclosure : Js.value :=
  Js.Obj [("title", Js.Arr [Js.Str "C"])].

(** The right credentials on a request with no body. *)
Definition no_body : LiveRequest :=
  mkLiveRequest (Some (mkCredentials "supernatural" "supernatural")) Unparsed.

(** The one pair of credentials line 29 lets through. *)
Definition the_credentials : Credentials :=
  mkCredentials "supernatural" "supernatural".

(** Right name, password in capitals, a body that [express.raw] refuses. *)
Definition capitals : LiveRequest :=
  mkLiveRequest (Some (mkCredentials "supernatural" "SUPERNATURAL"))
                (RawRefused 413).

(** * The mail routes *)






(** ** [/contacting] (lines 206-261); [zoho] is [process.env.ZOHO_EMAIL],
       [body] the object [express.json] leaves in [req.body]. *)








(** ** [/api/send-newsletter] (lines 307-333) *)












(** * Properties *)

Ltac break_match :=
  repeat match goal with
         | |- context [if ?b then _ else _] => destruct b eqn:?
         | |- context [match ?x with _ => _ end] => destruct x eqn:?
         end.

(** [H : Some x = Some (p', st')]: name the new state [snd x]. *)
Ltac new_state H :=
  apply (f_equal (option_map snd)) in H; cbn [option_map snd] in H;
  injection H as H; rewrite <- H; clear H.

(** ** What one pass of the loop head leaves alone *)

Lemma loopHead_isLive (st : State) : isLive (snd (loopHead st)) = isLive st.
Proof. unfold loopHead; break_match; reflexivity. Qed.

Lemma loopHead_cursor (st : State) :
  currentAutoDJIndex (snd (loopHead st)) = currentAutoDJIndex st.
Proof. unfold loopHead; break_match; reflexivity. Qed.

Lemma loopHead_tracks (st : State) :
  autodjTracks (snd (loopHead st)) = autodjTracks st.
Proof. unfold loopHead; break_match; reflexivity. Qed.

Lemma loopHead_listeners (st : State) :
  listeners (snd (loopHead st)) = listeners st.
Proof. unfold loopHead; break_match; reflexivity. Qed.

Lemma loopHead_liveTitle (st : State) :
  liveTitle (snd (loopHead st)) = liveTitle st.
Proof. unfold loopHead; break_match; reflexivity. Qed.

Lemma afterTrack_isLive (b : bool) (st : State) :
  isLive (snd (afterTrack b st)) = isLive st.
Proof. unfold afterTrack; rewrite loopHead_isLive; destruct b; reflexivity. Qed.

Lemma afterTrack_cursor (b : bool) (st : State) :
  currentAutoDJIndex (snd (afterTrack b st)) =
  currentAutoDJIndex st + (if b then 1 else 0).
Proof.
  unfold afterTrack; rewrite loopHead_cursor; destruct b; simpl; lia.
Qed.

Lemma resume_isLive (p p' : pc) (i : settled) (st st' : State) :
  resume p i st = Some (p', st') -> isLive st' = isLive st.
Proof.
  intros H.
  destruct p, i; simpl in H; try discriminate.
  - new_state H. apply loopHead_isLive.
  - new_state H. reflexivity.
  - new_state H. apply (afterTrack_isLive false (log LogAutoDJError st)).
  - destruct body.
    + new_state H. apply afterTrack_isLive.
    + new_state H. apply (afterTrack_isLive false (log LogAutoDJError st)).
    + destruct (isLive st) eqn:L; [new_state H; exact L|].
      destruct (Nat.eqb _ 0); [new_state H; exact L|].
      destruct (forEach_write (listeners st) c) as [ls []];
        new_state H; exact L.
  - new_state H. reflexivity.
  - new_state H. rewrite afterTrack_isLive. destruct threw; reflexivity.
Qed.

(** ** The ingest gate *)

Lemma bad_credentials_challenged (req : LiveRequest) :
  bad_credentials req -> basicAuthMiddleware req = Some challenge.
Proof.
  unfold bad_credentials, basicAuthMiddleware.
  destruct (user req) as [u|]; [|reflexivity].
  intros [H | H].
  - apply String.eqb_neq in H. rewrite H. reflexivity.
  - apply String.eqb_neq in H. rewrite H. rewrite orb_true_r. reflexivity.
Qed.

(** C3, as stated, fails: a push with a wrong password whose body is
    announced as JSON and does not parse is turned away by [express.json()]
    of line 24, before the credentials are looked at: the answer is the 400
    of the parser, with no challenge. *)
Lemma bad_credentials_without_challenge :
  bad_credentials wrong_password_bad_json
  /\ live wrong_password_bad_json one_listener = (one_listener, Refused 400)
  /\ snd (live wrong_password_bad_json one_listener) <> Sent challenge.
Proof.
  split; [simpl; right; discriminate|].
  split; [reflexivity | discriminate].
Qed.

(** C3, amended: a push whose credentials are absent or wrong is answered
    401 with a [WWW-Authenticate] challenge, unless [express.json()] of line
    24 has refused its body first, in which case the answer is the error of
    that parser.  In both cases the push changes nothing: [isLive] keeps its
    value and every registered sink has received exactly what it had received
    before, whatever the loop is doing at that moment. *)
Theorem live_bad_credentials_rejected (req : LiveRequest) (st : State) :
  bad_credentials req ->
  ((forall code, parsed req <> JsonRefused code) ->
   live req st = (st, Sent challenge))
  /\ (forall code, parsed req = JsonRefused code ->
                   live req st = (st, Refused code))
  /\ status challenge = 401
  /\ In "WWW-Authenticate" (List.map fst (headers challenge))
  /\ fst (live req st) = st
  /\ isLive (fst (live req st)) = isLive st
  /\ listeners (fst (live req st)) = listeners st
  /\ forall p, step (PostLive req) (p, st) = Some (p, st).
Proof.
  intros Hbad.
  pose proof (bad_credentials_challenged req Hbad) as B.
  assert (E : fst (live req st) = st).
  { unfold live. rewrite B. destruct (parsed req); reflexivity. }
  split; [|split; [|split; [|split; [|split; [|split; [|split]]]]]].
  - intros N. unfold live. rewrite B.
    destruct (parsed req) as [code| |code|c|]; try reflexivity.
    now elim (N code).
  - intros code P. unfold live. rewrite P. reflexivity.
  - reflexivity.
  - simpl. left. reflexivity.
  - exact E.
  - rewrite E. reflexivity.
  - rewrite E. reflexivity.
  - intros p. simpl. rewrite E. reflexivity.
Qed.

Lemma live_bad_credentials_rejected_witness :
  bad_credentials wrong_password
  /\ live wrong_password one_listener = (one_listener, Sent challenge).
Proof.
  split.
  - simpl. right. discriminate.
  - destruct (live_bad_credentials_rejected wrong_password one_listener)
      as (H & _).
    + simpl. right. discriminate.
    + apply H. discriminate.
Defined.

(** ** [isLive] only ever goes up *)

Lemma post_live_isLive (body : chunk) (st : State) :
  isLive (fst (post_live body st)) = true.
Proof.
  unfold post_live.
  destruct (forEach_write (listeners (set_isLive true st)) body) as [ls []];
    reflexivity.
Qed.

Lemma post_live_unparsed_isLive (st : State) :
  isLive (fst (post_live_unparsed st)) = true.
Proof.
  unfold post_live_unparsed. simpl. destruct (listeners st); reflexivity.
Qed.

Lemma post_live_unparsed_listeners (st : State) :
  listeners (fst (post_live_unparsed st)) = listeners st.
Proof. destruct st as [l v t c n k]. destruct l; reflexivity. Qed.

Lemma live_isLive (req : LiveRequest) (st : State) :
  isLive (fst (live req st)) = isLive st || accepted req.
Proof.
  unfold live, accepted.
  destruct (basicAuthMiddleware req);
    destruct (parsed req); simpl;
    rewrite ?post_live_isLive, ?post_live_unparsed_isLive,
      ?orb_false_r, ?orb_true_r; reflexivity.
Qed.

Lemma loadRSS_isLive (o : RssOutcome) (st : State) :
  isLive (loadRSS o st) = isLive st.
Proof.
  destruct o; simpl; try reflexivity.
  destruct (tracks_of_result result); reflexivity.
Qed.

Lemma update_live_title_isLive body (st : State) :
  isLive (fst (update_live_title body st)) = isLive st.
Proof. unfold update_live_title; break_match; reflexivity. Qed.

Lemma step_isLive (e : event) (s s' : Sys) :
  step e s = Some s' ->
  isLive (snd s') = isLive (snd s) || accepted_push e.
Proof.
  destruct s as [p st], s' as [p' st']. intros H.
  destruct e; simpl in H; simpl snd; simpl accepted_push;
    try (new_state H; now rewrite orb_false_r).
  - rewrite (resume_isLive _ _ _ _ _ H). now rewrite orb_false_r.
  - new_state H. apply live_isLive.
  - new_state H. rewrite update_live_title_isLive. now rewrite orb_false_r.
  - new_state H. rewrite loadRSS_isLive. now rewrite orb_false_r.
Qed.

Lemma run_isLive (es : list event) :
  forall s s', run es s = Some s' ->
               isLive (snd s) = true -> isLive (snd s') = true.
Proof.
  induction es as [|e es IH]; intros s s' H L; simpl in H.
  - injection H as <-. exact L.
  - destruct (step e s) as [s1|] eqn:E; [|discriminate].
    apply (IH s1 s' H).
    rewrite (step_isLive e s s1 E), L. reflexivity.
Qed.

(** C8: [isLive] starts false; a push that reaches the handler of line 140
    leaves it true; and every turn of the event loop, whatever it is, leaves
    a true [isLive] true, so that after an accepted push it is true in every
    later state of the process. *)
Theorem isLive_sticky :
  isLive initial = false
  /\ isLive (snd boot) = false
  /\ (forall req st, accepted req = true -> isLive (fst (live req st)) = true)
  /\ (forall e s s', step e s = Some s' ->
                     isLive (snd s) = true -> isLive (snd s') = true)
  /\ (forall req es s s1 s',
         accepted req = true ->
         step (PostLive req) s = Some s1 ->
         run es s1 = Some s' ->
         isLive (snd s') = true).
Proof.
  repeat split.
  - intros req st A. rewrite live_isLive, A. apply orb_true_r.
  - intros e s s' H L. rewrite (step_isLive e s s' H), L. reflexivity.
  - intros req es s s1 s' A H1 H.
    apply (run_isLive es s1 s' H).
    rewrite (step_isLive _ _ _ H1). simpl. rewrite A. apply orb_true_r.
Qed.

Lemma isLive_sticky_witness :
  isLive (fst (live good_push one_listener)) = true
  /\ isLive (loadRSS RssFetchRejected (fst (live good_push one_listener))) = true.
Proof.
  destruct isLive_sticky as (_ & _ & Hpush & Hstep & _).
  split.
  - apply (Hpush good_push one_listener). reflexivity.
  - apply (Hstep (RssSettled RssFetchRejected)
                 (Sleeping, fst (live good_push one_listener))
                 (Sleeping, loadRSS RssFetchRejected
                              (fst (live good_push one_listener)))).
    + reflexivity.
    + reflexivity.
Defined.

(** ** Status routes *)

(** C6: live with a non-empty title answers 200 with that title; live with
    the empty title answers the 404 [no title set], whatever the catalog and
    the cursor are; not live with an empty catalog answers the 404
    [no AutoDJ track loaded]; the two 404 answers differ. *)
Theorem current_track_cases :
  (forall st s, isLive st = true -> liveTitle st = Js.Str s ->
                s <> EmptyString ->
                current_track st = Sent (now_playing (Js.Str s)))
  /\ (forall st, isLive st = true -> liveTitle st = Js.Str EmptyString ->
                 current_track st = Sent no_title_set)
  /\ (forall st, isLive st = false -> autodjTracks st = [] ->
                 current_track st = Sent no_track_loaded)
  /\ no_title_set <> no_track_loaded.
Proof.
  repeat split.
  - intros st s L T N. unfold current_track. rewrite L, T. simpl.
    apply String.eqb_neq in N. rewrite N. reflexivity.
  - intros st L T. unfold current_track. rewrite L, T. reflexivity.
  - intros st L T. unfold current_track. rewrite L, T. reflexivity.
  - discriminate.
Qed.

Lemma current_track_cases_witness :
  current_track (mkState [] true [trackA; trackB] 0 (Js.Str "Sunday") [])
    = Sent (now_playing (Js.Str "Sunday"))
  /\ current_track (mkState [] true [trackA; trackB] 0 (Js.Str EmptyString) [])
    = Sent no_title_set
  /\ current_track (mkState [] false [] 0 (Js.Str "Sunday") [])
    = Sent no_track_loaded.
Proof.
  destruct current_track_cases as (H1 & H2 & H3 & _).
  split; [|split].
  - apply H1; [reflexivity | reflexivity | discriminate].
  - apply H2; reflexivity.
  - apply H3; reflexivity.
Defined.

(** C7, as stated, fails: the body whose title is the empty string has a
    title that is present and is a string, and it is answered 400. *)
Lemma update_live_title_empty_string_rejected :
  ~ (status (snd (update_live_title empty_title initial)) = 400
     <-> (title_of empty_title = Js.Undefined
          \/ Js.is_string (title_of empty_title) = false)).
Proof.
  intros [H _].
  destruct (H eq_refl) as [E | E]; discriminate E.
Qed.

(** C7, amended: the request is answered 400 exactly when the title is
    missing, is not a string, or is the empty string; a rejected request
    leaves the whole state, [liveTitle] included, as it was; any other
    request stores the given string in [liveTitle] and is answered 200. *)
Theorem update_live_title_validation (body : list (string * Js.value))
    (st : State) :
  (status (snd (update_live_title body st)) = 400
   <-> (title_of body = Js.Undefined
        \/ Js.is_string (title_of body) = false
        \/ title_of body = Js.Str EmptyString))
  /\ (status (snd (update_live_title body st)) = 400 ->
      fst (update_live_title body st) = st)
  /\ (status (snd (update_live_title body st)) <> 400 ->
      liveTitle (fst (update_live_title body st)) = title_of body
      /\ Js.is_string (title_of body) = true
      /\ snd (update_live_title body st)
         = mkResponse 200 [] (message "Live title updated.")).
Proof.
  unfold update_live_title, title_of.
  destruct (Js.assoc "title" body) as [| |b|n|s|items|fields] eqn:T;
    cbn [Js.truthy Js.is_string negb orb];
    try (rewrite ?orb_true_r; cbn [fst snd status];
         split; [split; [intros _; auto | reflexivity]
                |split; [reflexivity | intros N; now elim N]]).
  destruct s as [|c s]; cbn [String.eqb negb orb fst snd status].
  - split; [split; [intros _; auto | reflexivity]
           |split; [reflexivity | intros N; now elim N]].
  - assert (F : String.eqb (String c s) EmptyString = false) by reflexivity.
    split; [split; [discriminate | intros [E | [E | E]]; discriminate E]|].
    split; [discriminate | intros _; repeat split].
Qed.

Lemma update_live_title_validation_witness :
  status (snd (update_live_title [("title", Js.Num 7)] one_listener)) = 400
  /\ fst (update_live_title [("title", Js.Num 7)] one_listener) = one_listener
  /\ liveTitle (fst (update_live_title [("title", Js.Str "Sunday")] one_listener))
     = Js.Str "Sunday".
Proof.
  destruct (update_live_title_validation [("title", Js.Num 7)] one_listener)
    as (Hiff & Hsame & _).
  destruct (update_live_title_validation [("title", Js.Str "Sunday")] one_listener)
    as (_ & _ & Hset).
  assert (R : status (snd (update_live_title [("title", Js.Num 7)] one_listener))
              = 400).
  { apply Hiff. right. left. reflexivity. }
  split; [exact R|]. split; [exact (Hsame R)|].
  apply Hset. discriminate.
Defined.

(** C10: with exactly one of [start] and [end] in the query the answer is
    200 with the JSON object whose one member [activeListeners] is the
    number of registered listeners, the same answer as with neither; and
    the handler waits for the aggregation only when both are there. *)
Theorem listener_stats_needs_both_bounds (db : bool) (q : StatsQuery)
    (st : State) :
  ((q_start q = Js.Undefined /\ q_end q <> Js.Undefined)
   \/ (q_start q <> Js.Undefined /\ q_end q = Js.Undefined) ->
   listener_stats db q st
   = Answer
       (mkResponse 200 []
          (Json (Js.Obj [("activeListeners",
                          Js.Num (Z.of_nat (List.length (listeners st))))])))
   /\ listener_stats db q st
      = listener_stats db (mkStatsQuery Js.Undefined Js.Undefined) st)
  /\ (forall gte lte,
        listener_stats db q st = AwaitAggregate gte lte ->
        q_start q <> Js.Undefined /\ q_end q <> Js.Undefined
        /\ gte = q_start q /\ lte = q_end q).
Proof.
  split.
  - intros [[E _] | [_ E]]; unfold listener_stats; rewrite E; simpl;
      rewrite ?orb_true_r; split; reflexivity.
  - intros gte lte. unfold listener_stats.
    destruct (Js.truthy (q_start q)) eqn:S1; simpl; [|discriminate].
    destruct (Js.truthy (q_end q)) eqn:S2; simpl; [|discriminate].
    destruct db; [|discriminate].
    intros H. injection H as <- <-.
    repeat split.
    + intros E. rewrite E in S1. discriminate.
    + intros E. rewrite E in S2. discriminate.
Qed.

Lemma listener_stats_needs_both_bounds_witness :
  listener_stats true only_start one_listener
  = Answer (mkResponse 200 [] (Json (Js.Obj [("activeListeners", Js.Num 1)]))).
Proof.
  apply (listener_stats_needs_both_bounds true only_start one_listener).
  right. split; [discriminate | reflexivity].
Defined.

(** ** Fan-out and failing sinks *)

Lemma length_nonempty {A} (l : list A) :
  l <> [] -> Nat.eqb (List.length l) 0 = false.
Proof. destruct l; [intros N; now elim N | reflexivity]. Qed.

Lemma nonempty_length {A} (l l' : list A) :
  List.length l' = List.length l -> l <> [] -> l' <> [].
Proof. destruct l, l'; simpl; intros E N; congruence. Qed.

Lemma write_raises (r : Sink) (c : chunk) :
  raises r = true -> write r c = (r, Thrown).
Proof. unfold raises, write. destruct (mode r); try discriminate; reflexivity. Qed.

Lemma write_returns (r : Sink) (c : chunk) :
  raises r = false -> write r c = (written c r, Normal).
Proof.
  unfold raises, written, write. destruct (mode r); try discriminate; reflexivity.
Qed.

Lemma written_sid (c : chunk) (r : Sink) : sid (written c r) = sid r.
Proof. unfold written, write. destruct (mode r); reflexivity. Qed.

Lemma written_mode (c : chunk) (r : Sink) : mode (written c r) = mode r.
Proof. unfold written, write. destruct (mode r) eqn:M; simpl; congruence. Qed.

Lemma written_received (c : chunk) (r : Sink) :
  received (written c r)
  = match mode r with
    | Delivers => received r ++ [c]
    | _ => received r
    end.
Proof. unfold written, write. destruct (mode r); reflexivity. Qed.

Lemma forEach_write_quiet (c : chunk) (ls : list Sink) :
  Forall (fun r => raises r = false) ls ->
  forEach_write ls c = (List.map (written c) ls, Normal).
Proof.
  induction 1 as [|r rest Hr _ IH]; simpl; [reflexivity|].
  rewrite (write_returns r c Hr), IH. reflexivity.
Qed.

Lemma forEach_write_stops (c : chunk) (r : Sink) (after : list Sink) :
  raises r = true ->
  forall before,
    Forall (fun r => raises r = false) before ->
    forEach_write (before ++ r :: after) c
    = (List.map (written c) before ++ r :: after, Thrown).
Proof.
  intros Hr. induction 1 as [|r0 rest Hr0 _ IH]; simpl.
  - rewrite (write_raises r c Hr). reflexivity.
  - rewrite (write_returns r0 c Hr0), IH. reflexivity.
Qed.

Lemma forEach_write_thrown (c : chunk) (ls : list Sink) :
  Exists (fun r => raises r = true) ls ->
  snd (forEach_write ls c) = Thrown.
Proof.
  induction 1 as [r rest Hr | r rest _ IH]; simpl.
  - rewrite (write_raises r c Hr). reflexivity.
  - destruct (write r c) as [r' []]; [|reflexivity].
    destruct (forEach_write rest c) as [rest' k]. exact IH.
Qed.

Lemma forEach_write_sids (c : chunk) (ls : list Sink) :
  List.map sid (fst (forEach_write ls c)) = List.map sid ls.
Proof.
  induction ls as [|r rest IH]; simpl; [reflexivity|].
  unfold write at 1. destruct (mode r); simpl.
  - destruct (forEach_write rest c) as [rest' k]. simpl in *. now rewrite IH.
  - destruct (forEach_write rest c) as [rest' k]. simpl in *. now rewrite IH.
  - reflexivity.
Qed.

Lemma forEach_write_length (c : chunk) (ls : list Sink) :
  List.length (fst (forEach_write ls c)) = List.length ls.
Proof.
  rewrite <- (length_map sid), forEach_write_sids. apply length_map.
Qed.

(** C2, as stated, fails: a sink whose connection is gone takes nothing,
    the sound sink after it is written and the push is answered 200, but the
    dead sink is still registered after the broadcast. *)
Lemma broadcast_keeps_dead_sink :
  forEach_write dead_then_sound x01
  = ([mkSink 0 Discards []; mkSink 1 Delivers [x01]], Normal)
  /\ live good_push two_listeners
     = (mkState [mkSink 0 Discards []; mkSink 1 Delivers [x01]] true [] 0
                (Js.Str EmptyString) [],
        Sent (mkResponse 200 [] (Text "OK")))
  /\ ~ isolates_failures dead_then_sound x01.
Proof.
  split; [reflexivity|]. split; [reflexivity|].
  intros H.
  destruct (H (mkSink 0 Discards [])) as (_ & _ & N).
  - left. reflexivity.
  - reflexivity.
  - apply N. left. reflexivity.
Qed.

(** C2, amended: a write failure on one sink does not keep the chunk from
    any other registered sink and does not fail the broadcast: every sink
    that can take the chunk has it appended to what it had received, the
    handler of the live push answers 200 and the loop goes on to the next
    chunk.  The failing sink is not removed: it stays registered as it was,
    the broadcast changes neither the ids nor their order, and a sink leaves
    the set only by the [close] callback of its request. *)
Theorem broadcast_never_evicts (c : chunk) (ls : list Sink) :
  Forall (fun r => raises r = false) ls ->
  forEach_write ls c = (List.map (written c) ls, Normal)
  /\ (forall r, In r ls -> fails r = false ->
                In (mkSink (sid r) (mode r) (received r ++ [c]))
                   (fst (forEach_write ls c)))
  /\ (forall r, In r ls -> fails r = true ->
                In r (fst (forEach_write ls c)))
  /\ List.map sid (fst (forEach_write ls c)) = List.map sid ls
  /\ (forall st,
         listeners st = ls ->
         post_live c st
         = (set_listeners (List.map (written c) ls) (set_isLive true st),
            Sent (mkResponse 200 [] (Text "OK"))))
  /\ (forall t rest st,
         listeners st = ls -> ls <> [] -> isLive st = false ->
         resume (AwaitChunk t (SChunk c rest)) ReadSettled st
         = Some (AwaitChunk t rest,
                 set_listeners (List.map (written c) ls) st))
  /\ (forall id st,
         List.map sid (listeners (on_close id st))
         = List.filter (fun i => negb (Nat.eqb i id))
             (List.map sid (listeners st))).
Proof.
  intros Q.
  pose proof (forEach_write_quiet c ls Q) as E.
  split; [exact E|]. rewrite E. simpl fst.
  split; [|split; [|split; [|split; [|split]]]].
  - intros r I F. apply List.in_map_iff. exists r. split; [|exact I].
    unfold fails in F. unfold written, write.
    destruct (mode r); try discriminate F. reflexivity.
  - intros r I F. apply List.in_map_iff. exists r. split; [|exact I].
    pose proof (proj1 (List.Forall_forall _ ls) Q r I) as R.
    unfold fails in F. unfold raises in R. unfold written, write.
    destruct (mode r); try discriminate F; try discriminate R. reflexivity.
  - rewrite List.map_map. apply List.map_ext. intros r. apply written_sid.
  - intros st L. unfold post_live.
    change (listeners (set_isLive true st)) with (listeners st).
    rewrite L, E. reflexivity.
  - intros t rest st L N V. cbn [resume].
    rewrite V, L, (length_nonempty _ N), E. reflexivity.
  - intros id st. unfold on_close. simpl.
    induction (listeners st) as [|r rest IH]; simpl; [reflexivity|].
    destruct (Nat.eqb (sid r) id); simpl; now rewrite IH.
Qed.

Lemma broadcast_never_evicts_witness :
  In (mkSink 1 Delivers [x01]) (fst (forEach_write dead_then_sound x01))
  /\ In (mkSink 0 Discards []) (fst (forEach_write dead_then_sound x01))
  /\ List.map sid (fst (forEach_write dead_then_sound x01)) = [0; 1].
Proof.
  destruct (broadcast_never_evicts x01 dead_then_sound)
    as (_ & Hother & Hstays & Hids & _).
  - repeat constructor.
  - split; [|split].
    + apply (Hother (mkSink 1 Delivers [])); [right; left|]; reflexivity.
    + apply (Hstays (mkSink 0 Discards [])); [left|]; reflexivity.
    + exact Hids.
Defined.

(** ** Catalog refresh *)

(** A refresh that does not get as far as the assignment of line 75 leaves
    everything but the console as it was. *)
Lemma loadRSS_failure_keeps_catalog (o : RssOutcome) (st : State) :
  failed o ->
  autodjTracks (loadRSS o st) = autodjTracks st
  /\ currentAutoDJIndex (loadRSS o st) = currentAutoDJIndex st
  /\ listeners (loadRSS o st) = listeners st.
Proof.
  destruct o; simpl; intros H; try (repeat split; reflexivity).
  rewrite H. repeat split; reflexivity.
Qed.

(** A result that carries an [item] array is mapped entry by entry, the
    array of no entries to the catalog of no tracks. *)
Lemma loadRSS_item_array (rest_of_channel : list (string * Js.value))
    (more_channels : list Js.value) (st : State) :
  autodjTracks
    (loadRSS
       (RssParsed
          (Js.Obj [("rss",
             Js.Obj [("channel",
               Js.Arr (Js.Obj (("item", Js.Arr []) :: rest_of_channel)
                       :: more_channels))])]))
       st) = [].
Proof. reflexivity. Qed.

(** With no track the loop sleeps and polls: neither an exception nor the
    [Crashed] state. *)
Lemma empty_catalog_waits (st : State) :
  autodjTracks st = [] -> loopHead st = (Sleeping, st).
Proof.
  intros E. unfold loopHead. rewrite E. simpl. rewrite orb_true_r. reflexivity.
Qed.

(** C5, on the code: a feed that was fetched and parsed and has no track
    does not empty the catalog.  [result.rss.channel[0].item] is [undefined],
    its [map] raises before line 75 assigns, and the old rotation stays. *)
Theorem loadRSS_feed_without_items :
  tracks_of_result feed_without_items = None
  /\ autodjTracks (loadRSS (RssParsed feed_without_items) rotation_AB)
     = [trackA; trackB]
  /\ autodjTracks (loadRSS (RssParsed feed_without_items) rotation_AB) <> [].
Proof.
  split; [reflexivity|]. split; [reflexivity | discriminate].
Qed.

(** ** The cursor *)

Lemma resume_cursor (p p' : pc) (i : settled) (st st' : State) :
  resume p i st = Some (p', st') ->
  currentAutoDJIndex st'
  = currentAutoDJIndex st + (if ends_stream p i then 1 else 0).
Proof.
  intros H.
  destruct p, i; simpl in H; try discriminate; cbn [ends_stream].
  - new_state H. rewrite loopHead_cursor. lia.
  - new_state H. lia.
  - new_state H. rewrite afterTrack_cursor. simpl. lia.
  - destruct body.
    + new_state H. apply afterTrack_cursor.
    + new_state H. rewrite afterTrack_cursor. simpl. lia.
    + destruct (isLive st); [new_state H; lia|].
      destruct (Nat.eqb _ 0); [new_state H; lia|].
      destruct (forEach_write (listeners st) c) as [ls []];
        new_state H; simpl; lia.
  - new_state H. lia.
  - new_state H. rewrite afterTrack_cursor. destruct threw; simpl; lia.
Qed.

Lemma live_cursor (req : LiveRequest) (st : State) :
  currentAutoDJIndex (fst (live req st)) = currentAutoDJIndex st.
Proof.
  unfold live, post_live, post_live_unparsed. break_match; reflexivity.
Qed.

Lemma loadRSS_cursor (o : RssOutcome) (st : State) :
  currentAutoDJIndex (loadRSS o st) = currentAutoDJIndex st.
Proof.
  destruct o; simpl; try reflexivity.
  destruct (tracks_of_result result); reflexivity.
Qed.

Lemma update_live_title_cursor body (st : State) :
  currentAutoDJIndex (fst (update_live_title body st)) = currentAutoDJIndex st.
Proof. unfold update_live_title; break_match; reflexivity. Qed.

Lemma step_cursor (e : event) (s s' : Sys) :
  step e s = Some s' ->
  currentAutoDJIndex (snd s')
  = currentAutoDJIndex (snd s) + (if full_play e s then 1 else 0).
Proof.
  destruct s as [p st], s' as [p' st']. intros H.
  destruct e; simpl in H; cbn [snd fst full_play];
    try (new_state H; simpl; lia).
  - apply (resume_cursor _ _ _ _ _ H).
  - new_state H. rewrite live_cursor. lia.
  - new_state H. rewrite update_live_title_cursor. lia.
  - new_state H. rewrite loadRSS_cursor. lia.
Qed.

Lemma run_cursor (es : list event) :
  forall s s', run es s = Some s' ->
    currentAutoDJIndex (snd s')
    = currentAutoDJIndex (snd s) + full_plays es s.
Proof.
  induction es as [|e es IH]; intros s s' H; simpl in *.
  - injection H as <-. lia.
  - destruct (step e s) as [s1|] eqn:E; [|discriminate].
    rewrite (IH s1 s' H), (step_cursor e s s1 E). lia.
Qed.

(** The pick of line 104 depends on the catalog and the cursor only. *)
Lemma loopHead_same_pick (st st' : State) (t : Track) :
  fst (loopHead st) = AwaitFetch t ->
  autodjTracks st' = autodjTracks st ->
  currentAutoDJIndex st' = currentAutoDJIndex st ->
  isLive st' = false ->
  listeners st' <> [] ->
  loopHead st' = (AwaitFetch t, log (LogPlaying (title t)) st').
Proof.
  unfold loopHead. intros H ET EC L N.
  rewrite ET, EC, L.
  destruct (isLive st || Nat.eqb (List.length (autodjTracks st)) 0) eqn:G;
    [discriminate H|].
  apply orb_false_elim in G. destruct G as [_ G]. rewrite G.
  destruct (Nat.eqb (List.length (listeners st)) 0); [discriminate H|].
  destruct (listeners st') as [|r rest]; [now elim N|]. simpl.
  destruct (List.nth_error _ _) as [t'|]; [|discriminate H].
  simpl in H. injection H as ->. reflexivity.
Qed.

(** C1: over any run of the process, with the handlers interleaved in any
    way, the cursor grows by exactly the number of times the loop saw a body
    end while it was still iterating over it.  A chunk that comes up while
    [isLive] is true is not forwarded and the loop is left without a full
    play; a rejected fetch and a read error are no full plays either.  After
    a pick, as long as no body has ended the cursor is where it was, and the
    next pass of the loop head that finds the same catalog, [isLive] false
    and a listener picks the same track, whose new body is read from its
    first chunk. *)
Theorem cursor_counts_full_plays :
  (forall es s s',
      run es s = Some s' ->
      currentAutoDJIndex (snd s')
      = currentAutoDJIndex (snd s) + full_plays es s)
  /\ (forall t st,
         resume (AwaitChunk t SEnd) ReadSettled st = Some (afterTrack true st)
         /\ currentAutoDJIndex (snd (afterTrack true st))
            = S (currentAutoDJIndex st))
  /\ (forall t c rest st,
         isLive st = true ->
         resume (AwaitChunk t (SChunk c rest)) ReadSettled st
         = Some (Closing t false, st)
         /\ ends_stream (AwaitChunk t (SChunk c rest)) ReadSettled = false
         /\ forall st', resume (Closing t false) ReturnSettled st'
                        = Some (afterTrack false st')
                        /\ currentAutoDJIndex (snd (afterTrack false st'))
                           = currentAutoDJIndex st')
  /\ (forall t st,
         resume (AwaitFetch t) FetchRejected st
         = Some (afterTrack false (log LogAutoDJError st))
         /\ resume (AwaitChunk t SFail) ReadSettled st
            = Some (afterTrack false (log LogAutoDJError st))
         /\ currentAutoDJIndex (snd (afterTrack false (log LogAutoDJError st)))
            = currentAutoDJIndex st)
  /\ (forall st0 t es s',
         fst (loopHead st0) = AwaitFetch t ->
         run es (loopHead st0) = Some s' ->
         full_plays es (loopHead st0) = 0 ->
         currentAutoDJIndex (snd s') = currentAutoDJIndex st0
         /\ (autodjTracks (snd s') = autodjTracks st0 ->
             isLive (snd s') = false ->
             listeners (snd s') <> [] ->
             loopHead (snd s')
             = (AwaitFetch t, log (LogPlaying (title t)) (snd s'))
             /\ forall body st,
                 resume (AwaitFetch t) (FetchResolved body) st
                 = Some (AwaitChunk t body, st))).
Proof.
  split; [exact run_cursor|].
  split.
  { intros t st. split; [reflexivity|].
    rewrite afterTrack_cursor. simpl. lia. }
  split.
  { intros t c rest st L. simpl. rewrite L.
    split; [reflexivity|]. split; [reflexivity|].
    intros st'. split; [reflexivity|].
    rewrite afterTrack_cursor. simpl. lia. }
  split.
  { intros t st. split; [reflexivity|]. split; [reflexivity|].
    rewrite afterTrack_cursor. simpl. lia. }
  intros st0 t es s' Hpick Hrun Hnone.
  assert (C : currentAutoDJIndex (snd s') = currentAutoDJIndex st0).
  { rewrite (run_cursor es _ _ Hrun), Hnone, loopHead_cursor. lia. }
  split; [exact C|].
  intros ET L N. split; [|reflexivity].
  apply (loopHead_same_pick st0 (snd s') t Hpick ET C L N).
Qed.

Lemma cursor_counts_full_plays_witness :
  (exists s', run interrupted_by_live (loopHead rotation_AB) = Some s'
              /\ fst s' = Sleeping
              /\ currentAutoDJIndex (snd s') = 0)
  /\ (exists s', run fetch_fails (loopHead rotation_AB) = Some s'
                 /\ currentAutoDJIndex (snd s') = 0
                 /\ loopHead (snd s')
                    = (AwaitFetch trackA,
                       log (LogPlaying (title trackA)) (snd s'))).
Proof.
  destruct cursor_counts_full_plays as (_ & _ & _ & _ & H).
  split.
  - eexists. split; [reflexivity|]. split; [reflexivity|].
    apply (H rotation_AB trackA interrupted_by_live); reflexivity.
  - eexists. split; [reflexivity|].
    destruct (H rotation_AB trackA fetch_fails _ eq_refl eq_refl eq_refl)
      as (C & R).
    split; [exact C|].
    apply R; [reflexivity | reflexivity | discriminate].
Defined.

(** ** Rotation *)

Lemma set_listeners_same (st : State) : set_listeners (listeners st) st = st.
Proof. destruct st; reflexivity. Qed.

Lemma run_app (es1 es2 : list event) :
  forall s, run (es1 ++ es2) s
            = match run es1 s with Some s' => run es2 s' | None => None end.
Proof.
  induction es1 as [|e es1 IH]; intros s; simpl; [reflexivity|].
  destruct (step e s); [apply IH | reflexivity].
Qed.

Lemma written_quiet (c : chunk) (ls : list Sink) :
  Forall (fun r => raises r = false) ls ->
  Forall (fun r => raises r = false) (List.map (written c) ls).
Proof.
  induction 1 as [|r rest Hr _ IH]; simpl; constructor; [|exact IH].
  unfold raises in *. rewrite written_mode. exact Hr.
Qed.

Lemma heard_quiet (body : list chunk) :
  forall ls, Forall (fun r => raises r = false) ls ->
             Forall (fun r => raises r = false) (heard body ls).
Proof.
  induction body as [|c body IH]; intros ls H; simpl; [exact H|].
  apply IH, written_quiet, H.
Qed.

Lemma heard_length (body : list chunk) :
  forall ls, List.length (heard body ls) = List.length ls.
Proof.
  induction body as [|c body IH]; intros ls; simpl; [reflexivity|].
  rewrite IH. apply length_map.
Qed.

(** The inner loop, undisturbed: every chunk of the body goes to every sink
    and the body ends. *)
Lemma stream_uninterrupted (t : Track) (body : list chunk) :
  forall st,
    isLive st = false ->
    listeners st <> [] ->
    Forall (fun r => raises r = false) (listeners st) ->
    run (List.repeat (Settle ReadSettled) (S (List.length body)))
        (AwaitChunk t (stream_of body), st)
    = Some (afterTrack true (set_listeners (heard body (listeners st)) st)).
Proof.
  induction body as [|c body IH]; intros st L N Q.
  - simpl. rewrite set_listeners_same. reflexivity.
  - change (List.repeat (Settle ReadSettled) (S (List.length (c :: body))))
      with (Settle ReadSettled
            :: List.repeat (Settle ReadSettled) (S (List.length body))).
    change (stream_of (c :: body)) with (SChunk c (stream_of body)).
    cbn [run step resume]. rewrite L, (length_nonempty _ N).
    rewrite (forEach_write_quiet c _ Q).
    rewrite IH.
    + reflexivity.
    + exact L.
    + simpl. apply (nonempty_length (listeners st)); [apply length_map | exact N].
    + simpl. apply written_quiet, Q.
Qed.

Lemma pick_some (tracks : list Track) (cursor : nat) :
  tracks <> [] -> exists t, pick tracks cursor = Some t.
Proof.
  intros N. unfold pick.
  destruct (List.nth_error tracks (cursor mod List.length tracks)) as [t|] eqn:E;
    [now exists t|].
  apply List.nth_error_None in E.
  assert (List.length tracks <> 0) by (destruct tracks; simpl; congruence).
  pose proof (Nat.mod_upper_bound cursor (List.length tracks)). lia.
Qed.

(** Line 104: an eligible pass of the loop head picks the track at the
    cursor modulo the length of the catalog and waits for its fetch. *)
Lemma loopHead_eligible (st : State) :
  eligible st ->
  exists t, pick (autodjTracks st) (currentAutoDJIndex st) = Some t
            /\ loopHead st = (AwaitFetch t, log (LogPlaying (title t)) st).
Proof.
  intros [L T N _].
  destruct (pick_some (autodjTracks st) (currentAutoDJIndex st) T) as [t P].
  exists t. split; [exact P|].
  unfold loopHead. rewrite L, (length_nonempty _ T), (length_nonempty _ N).
  simpl. unfold pick in P. rewrite P. reflexivity.
Qed.

Lemma heard_app (b1 b2 : list chunk) (ls : list Sink) :
  heard (b1 ++ b2) ls = heard b2 (heard b1 ls).
Proof. apply List.fold_left_app. Qed.

Lemma play_uninterrupted (t : Track) (body : list chunk) (st : State) :
  isLive st = false ->
  listeners st <> [] ->
  Forall (fun r => raises r = false) (listeners st) ->
  run (play_events body) (AwaitFetch t, st)
  = Some (loopHead (incr_currentAutoDJIndex
                      (set_listeners (heard body (listeners st)) st))).
Proof.
  intros L N Q. unfold play_events.
  change (run (?e :: ?es) ?s) with
    (match step e s with Some s' => run es s' | None => None end).
  cbn [step resume].
  rewrite (stream_uninterrupted t body st L N Q). reflexivity.
Qed.

Lemma plays_uninterrupted (bodies : list (list chunk)) :
  forall st,
    eligible st ->
    exists t st',
      run (List.flat_map play_events bodies) (loopHead st)
      = Some (AwaitFetch t, st')
      /\ pick (autodjTracks st) (currentAutoDJIndex st + List.length bodies)
         = Some t
      /\ currentAutoDJIndex st' = currentAutoDJIndex st + List.length bodies
      /\ autodjTracks st' = autodjTracks st
      /\ console st'
         = console st
           ++ List.map (fun t => LogPlaying (title t))
                (rotation (autodjTracks st) (currentAutoDJIndex st)
                          (S (List.length bodies)))
      /\ listeners st' = heard (List.concat bodies) (listeners st).
Proof.
  induction bodies as [|body bodies IH]; intros st E.
  - destruct (loopHead_eligible st E) as (t & P & H).
    exists t, (log (LogPlaying (title t)) st).
    simpl. rewrite Nat.add_0_r, P, H. repeat split.
  - destruct (loopHead_eligible st E) as (t & P & H).
    destruct E as [L T N Q].
    set (st2 := incr_currentAutoDJIndex
                  (set_listeners
                     (heard body (listeners (log (LogPlaying (title t)) st)))
                     (log (LogPlaying (title t)) st))).
    assert (E2 : eligible st2).
    { constructor; simpl; try assumption.
      - apply (nonempty_length (listeners st)); [apply heard_length | exact N].
      - apply heard_quiet, Q. }
    destruct (IH st2 E2) as (t' & st' & R & P' & C & TR & K & LS).
    exists t', st'.
    cbn [List.flat_map]. rewrite run_app, H.
    rewrite (play_uninterrupted t body (log (LogPlaying (title t)) st) L N Q).
    fold st2. split; [exact R|].
    simpl in P', C, TR, K, LS.
    cbn [List.length List.concat rotation].
    rewrite Nat.add_succ_r, P. simpl in P'.
    repeat split.
    + exact P'.
    + rewrite C. reflexivity.
    + exact TR.
    + rewrite K, <- List.app_assoc. reflexivity.
    + rewrite LS, heard_app. reflexivity.
Qed.

(** *** One turn of the rotation *)

Lemma nth_error_rotation (tracks : list Track) :
  tracks <> [] ->
  forall n cursor i,
    List.nth_error (rotation tracks cursor n) i
    = if Nat.ltb i n then pick tracks (cursor + i) else None.
Proof.
  intros N. induction n as [|n IH]; intros cursor i.
  - simpl. destruct i; reflexivity.
  - cbn [rotation].
    destruct (pick_some tracks cursor N) as [t P]. rewrite P.
    destruct i as [|i].
    + simpl. rewrite Nat.add_0_r. symmetry. exact P.
    + cbn [List.nth_error]. rewrite IH.
      change (Nat.ltb (S i) (S n)) with (Nat.ltb i n).
      replace (S cursor + i) with (cursor + S i) by lia. reflexivity.
Qed.

Lemma mod_shift (len cursor i : nat) :
  i < len ->
  (cursor + i) mod len
  = if Nat.ltb (cursor mod len + i) len
    then cursor mod len + i
    else cursor mod len + i - len.
Proof.
  intros Hi.
  assert (Hr : cursor mod len < len) by (apply Nat.mod_upper_bound; lia).
  rewrite <- (Nat.Div0.add_mod_idemp_l cursor i len).
  destruct (Nat.ltb_spec (cursor mod len + i) len) as [Hlt | Hge].
  - apply Nat.mod_small. exact Hlt.
  - assert (E : (cursor mod len + i) mod len
               = (cursor mod len + i - len) mod len).
    { replace (cursor mod len + i)
        with (cursor mod len + i - len + 1 * len) at 1 by lia.
      apply Nat.Div0.mod_add. }
    rewrite E. apply Nat.mod_small. lia.
Qed.

(** As many picks as the catalog has tracks are the catalog, read from the
    position of the cursor round to just before it: every position once. *)
Lemma rotation_full_cycle (tracks : list Track) (cursor : nat) :
  tracks <> [] ->
  rotation tracks cursor (List.length tracks)
  = List.skipn (cursor mod List.length tracks) tracks
    ++ List.firstn (cursor mod List.length tracks) tracks.
Proof.
  intros N. apply List.nth_error_ext. intros i.
  set (len := List.length tracks).
  assert (Hlen : len <> 0) by (subst len; destruct tracks; simpl; congruence).
  assert (Hr : cursor mod len < len) by (apply Nat.mod_upper_bound; exact Hlen).
  rewrite (nth_error_rotation tracks N), List.nth_error_app.
  rewrite List.length_skipn, List.nth_error_skipn, List.nth_error_firstn.
  fold len. unfold pick. fold len.
  destruct (Nat.ltb_spec i len) as [Hi | Hi].
  - rewrite (mod_shift len cursor i Hi).
    destruct (Nat.ltb_spec i (len - cursor mod len)) as [H1 | H1].
    + destruct (Nat.ltb_spec (cursor mod len + i) len); [reflexivity | lia].
    + destruct (Nat.ltb_spec (cursor mod len + i) len); [lia|].
      destruct (Nat.ltb_spec (i - (len - cursor mod len)) (cursor mod len));
        [|lia].
      f_equal. lia.
  - destruct (Nat.ltb_spec i (len - cursor mod len)); [lia|].
    destruct (Nat.ltb_spec (i - (len - cursor mod len)) (cursor mod len));
      [lia | reflexivity].
Qed.

(** C9: an eligible pass of the loop head picks the track at the cursor
    modulo the length of the catalog; a track played with nothing in between
    moves the cursor by one; so any number of such plays goes through the
    catalog in order and round again, a whole turn visiting every position
    once, and with the catalog [A; B] and the cursor at 0 the plays are A,
    then B, then A. *)
Theorem rotation_in_order :
  (forall st,
      eligible st ->
      exists t, pick (autodjTracks st) (currentAutoDJIndex st) = Some t
                /\ loopHead st = (AwaitFetch t, log (LogPlaying (title t)) st))
  /\ (forall bodies st,
         eligible st ->
         exists t st',
           run (List.flat_map play_events bodies) (loopHead st)
           = Some (AwaitFetch t, st')
           /\ pick (autodjTracks st) (currentAutoDJIndex st + List.length bodies)
              = Some t
           /\ currentAutoDJIndex st'
              = currentAutoDJIndex st + List.length bodies
           /\ autodjTracks st' = autodjTracks st
           /\ console st'
              = console st
                ++ List.map (fun t => LogPlaying (title t))
                     (rotation (autodjTracks st) (currentAutoDJIndex st)
                               (S (List.length bodies)))
           /\ listeners st' = heard (List.concat bodies) (listeners st))
  /\ (forall tracks cursor,
         tracks <> [] ->
         rotation tracks cursor (List.length tracks)
         = List.skipn (cursor mod List.length tracks) tracks
           ++ List.firstn (cursor mod List.length tracks) tracks)
  /\ (forall A B, rotation [A; B] 0 3 = [A; B; A]).
Proof.
  split; [exact loopHead_eligible|].
  split; [exact plays_uninterrupted|].
  split; [exact rotation_full_cycle|].
  reflexivity.
Qed.

Lemma rotation_AB_eligible : eligible rotation_AB.
Proof.
  constructor; simpl; try discriminate; try reflexivity.
  repeat constructor.
Qed.

Lemma rotation_in_order_witness :
  exists st',
    run (List.flat_map play_events [[x01; x02]; [x03]; [x01; x02]])
        (loopHead rotation_AB)
    = Some (AwaitFetch trackB, st')
    /\ currentAutoDJIndex st' = 3
    /\ console st'
       = [LogPlaying (Js.Str "A"); LogPlaying (Js.Str "B");
          LogPlaying (Js.Str "A"); LogPlaying (Js.Str "B")]
    /\ listeners st' = [mkSink 0 Delivers [x01; x02; x03; x01; x02]].
Proof.
  destruct rotation_in_order as (_ & H & _).
  destruct (H [[x01; x02]; [x03]; [x01; x02]] rotation_AB rotation_AB_eligible)
    as (t & st' & R & P & C & _ & K & L).
  exists st'. injection P as <-.
  split; [exact R|]. split; [exact C|]. split; [exact K | exact L].
Defined.

(** ** No listener in the middle of a track *)

(** Lines 117-121: the chunk that comes up while nobody listens is in
    neither the next control point nor the state, and after the sleep the
    loop reads the chunk after it. *)
Lemma pause_skips_chunk (t : Track) (c : chunk) (rest : stream) (st : State) :
  isLive st = false ->
  listeners st = [] ->
  resume (AwaitChunk t (SChunk c rest)) ReadSettled st = Some (Paused t rest, st)
  /\ forall st', resume (Paused t rest) TimerFired st'
                 = Some (AwaitChunk t rest, st').
Proof.
  intros L N. simpl. rewrite L, N. split; [reflexivity|]. intros st'. reflexivity.
Qed.

(** C4, on the code: the loop does sleep instead of leaving the track, and
    the track counts as played (the cursor goes from 0 to 1), but the second
    chunk is written to no sink: the listener that arrived during the sleep
    has received the third chunk only. *)
Theorem pause_loses_chunk :
  run (List.firstn 4 listener_away) (loopHead rotation_AB)
  = Some (Paused trackA (stream_of [x03]),
          mkState [] false [trackA; trackB] 0 (Js.Str EmptyString)
                  [LogPlaying (Js.Str "A")])
  /\ run listener_away (loopHead rotation_AB)
     = Some (AwaitFetch trackB,
             mkState [mkSink 1 Delivers [x03]] false [trackA; trackB] 1
                     (Js.Str EmptyString)
                     [LogPlaying (Js.Str "A"); LogPlaying (Js.Str "B")]).
Proof. split; reflexivity. Qed.

(** ** Two facts about reachable states *)

(** The index of line 104 is always in range: the loop never reads
    [track.title] of [undefined]. *)
Lemma loopHead_never_crashes (st : State) : fst (loopHead st) <> Crashed.
Proof.
  unfold loopHead.
  destruct (isLive st || Nat.eqb (List.length (autodjTracks st)) 0) eqn:G;
    [discriminate|].
  destruct (Nat.eqb (List.length (listeners st)) 0); [discriminate|].
  apply orb_false_elim in G. destruct G as [_ G].
  assert (T : autodjTracks st <> []).
  { intros E. rewrite E in G. discriminate G. }
  destruct (pick_some (autodjTracks st) (currentAutoDJIndex st) T) as [t P].
  unfold pick in P. rewrite P. discriminate.
Qed.

(** [liveTitle] is a string in every state the process can reach. *)
Lemma liveTitle_is_string (es : list event) :
  forall s s',
    run es s = Some s' ->
    Js.is_string (liveTitle (snd s)) = true ->
    Js.is_string (liveTitle (snd s')) = true.
Proof.
  induction es as [|e es IH]; intros s s' H T; simpl in H.
  - injection H as <-. exact T.
  - destruct (step e s) as [s1|] eqn:E; [|discriminate].
    apply (IH s1 s' H). clear IH H.
    destruct s as [p st], s1 as [p1 st1]. simpl in T |- *.
    destruct e; simpl in E; try (new_state E; exact T).
    + destruct p, i; simpl in E; try discriminate;
        try (new_state E; unfold afterTrack;
             rewrite ?loopHead_liveTitle; exact T).
      * destruct body;
          try (new_state E; unfold afterTrack;
               rewrite ?loopHead_liveTitle; exact T).
        destruct (isLive st); [new_state E; exact T|].
        destruct (Nat.eqb _ 0); [new_state E; exact T|].
        destruct (forEach_write (listeners st) c) as [ls []];
          new_state E; exact T.
      * new_state E. unfold afterTrack. rewrite loopHead_liveTitle.
        destruct threw; exact T.
    + new_state E. unfold live, post_live, post_live_unparsed. break_match; exact T.
    + new_state E. unfold update_live_title.
      destruct (negb (Js.truthy (Js.assoc "title" body))
                || negb (Js.is_string (Js.assoc "title" body))) eqn:G;
        [exact T|].
      apply orb_false_elim in G. destruct G as [_ G].
      simpl. now destruct (Js.is_string (Js.assoc "title" body)).
    + new_state E. destruct o; simpl; try exact T.
      destruct (tracks_of_result result); exact T.
Qed.

(** * Further properties *)

(** ** The loop stays alive, and when it starts a track *)

Lemma afterTrack_never_crashes (b : bool) (st : State) :
  fst (afterTrack b st) <> Crashed.
Proof. unfold afterTrack. apply loopHead_never_crashes. Qed.

Lemma resume_never_crashes (p p' : pc) (i : settled) (st st' : State) :
  resume p i st = Some (p', st') -> p' <> Crashed.
Proof.
  intros H.
  assert (E : option_map fst (resume p i st) = Some p') by (rewrite H; reflexivity).
  clear H. intros ->.
  destruct p, i; simpl in E; try discriminate.
  - injection E as E. exact (loopHead_never_crashes _ E).
  - injection E as E. exact (afterTrack_never_crashes _ _ E).
  - destruct body; simpl in E.
    + injection E as E. exact (afterTrack_never_crashes _ _ E).
    + injection E as E. exact (afterTrack_never_crashes _ _ E).
    + destruct (isLive st); [discriminate E|].
      destruct (Nat.eqb _ 0); [discriminate E|].
      destruct (forEach_write (listeners st) c) as [ls []]; discriminate E.
  - injection E as E. exact (afterTrack_never_crashes _ _ E).
Qed.

Lemma step_never_crashes (e : event) (s s' : Sys) :
  step e s = Some s' -> fst s <> Crashed -> fst s' <> Crashed.
Proof.
  destruct s as [p st], s' as [p' st']. intros H N.
  destruct e; simpl in H;
    try (injection H as <- _; exact N).
  apply (resume_never_crashes _ _ _ _ _ H).
Qed.

(** X1: whatever happens after the start of the process, the loop never
    reads past the catalog: the index of line 104 is in range at every pick,
    so the loop is never lost to the exception of [track.title] on
    [undefined]. *)
Theorem loop_never_crashes (es : list event) :
  forall s s',
    fst s <> Crashed ->
    run es s = Some s' ->
    fst s' <> Crashed.
Proof.
  induction es as [|e es IH]; intros s s' N H; simpl in H.
  - injection H as <-. exact N.
  - destruct (step e s) as [s1|] eqn:E; [|discriminate].
    apply (IH s1 s' (step_never_crashes e s s1 E N) H).
Qed.

Lemma loop_never_crashes_witness :
  exists s',
    run listener_away (loopHead rotation_AB) = Some s' /\ fst s' <> Crashed.
Proof.
  eexists. split; [reflexivity|].
  apply (loop_never_crashes listener_away (loopHead rotation_AB));
    [discriminate | reflexivity].
Defined.

Lemma loopHead_fetches_iff (st : State) :
  (fetching (fst (loopHead st)) = true
   <-> (isLive st = false /\ autodjTracks st <> [] /\ listeners st <> []))
  /\ (fetching (fst (loopHead st)) = false -> loopHead st = (Sleeping, st)).
Proof.
  pose proof (loopHead_never_crashes st) as NC.
  unfold loopHead in *.
  destruct (isLive st) eqn:L; simpl in *.
  { split; [split; [discriminate | intros (F & _); discriminate F] | reflexivity]. }
  destruct (autodjTracks st) as [|t0 ts] eqn:T; simpl in *.
  { split; [split; [discriminate | intros (_ & F & _); now elim F] | reflexivity]. }
  destruct (listeners st) as [|r rs] eqn:Ls; simpl in *.
  { split; [split; [discriminate | intros (_ & _ & F); now elim F] | reflexivity]. }
  destruct (List.nth_error (t0 :: ts) _) as [t|]; simpl in *.
  - split; [split; [intros _; repeat split; discriminate | reflexivity]
           | discriminate].
  - now elim NC.
Qed.

Lemma loopHead_fetching (st : State) :
  fetching (fst (loopHead st)) = true ->
  isLive st = false /\ autodjTracks st <> [] /\ listeners st <> []
  /\ exists t, pick (autodjTracks st) (currentAutoDJIndex st) = Some t
               /\ loopHead st = (AwaitFetch t, log (LogPlaying (title t)) st).
Proof.
  intros F.
  destruct (proj1 (proj1 (loopHead_fetches_iff st)) F) as (L & T & N).
  repeat split; try assumption.
  destruct (pick_some (autodjTracks st) (currentAutoDJIndex st) T) as [t P].
  exists t. split; [exact P|].
  unfold loopHead. rewrite L, (length_nonempty _ T), (length_nonempty _ N).
  simpl. unfold pick in P. rewrite P. reflexivity.
Qed.

(** X2: on every path through the loop, a fetch is started only in a state
    in which [isLive] is false, the catalog has a track and a listener is
    registered, and it is the fetch of the track at the cursor modulo the
    length of the catalog. *)
Theorem fetch_started_only_when_eligible (p p' : pc) (i : settled)
    (st st' : State) :
  resume p i st = Some (p', st') ->
  fetching p' = true ->
  isLive st' = false
  /\ autodjTracks st' <> []
  /\ listeners st' <> []
  /\ exists t, p' = AwaitFetch t
               /\ pick (autodjTracks st') (currentAutoDJIndex st') = Some t.
Proof.
  intros H F.
  assert (K : exists st0, (p', st') = loopHead st0).
  { destruct p, i; simpl in H; try discriminate.
    - injection H as H. now exists st.
    - injection H as <- _. discriminate F.
    - injection H as H. eexists. symmetry. exact H.
    - destruct body.
      + injection H as H. eexists. symmetry. exact H.
      + injection H as H. eexists. symmetry. exact H.
      + destruct (isLive st); [injection H as <- _; discriminate F|].
        destruct (Nat.eqb _ 0); [injection H as <- _; discriminate F|].
        destruct (forEach_write (listeners st) c) as [ls []];
          injection H as <- _; discriminate F.
    - injection H as <- _. discriminate F.
    - injection H as H. eexists. symmetry. exact H. }
  destruct K as [st0 K].
  assert (F0 : fetching (fst (loopHead st0)) = true) by (rewrite <- K; exact F).
  destruct (loopHead_fetching st0 F0) as (L & T & N & t & P & E).
  rewrite E in K. injection K as -> ->. simpl.
  repeat split; try assumption.
  exists t. split; [reflexivity | exact P].
Qed.

Lemma fetch_started_only_when_eligible_witness :
  isLive (snd (loopHead rotation_AB)) = false
  /\ pick (autodjTracks (snd (loopHead rotation_AB)))
          (currentAutoDJIndex (snd (loopHead rotation_AB))) = Some trackA.
Proof.
  destruct (fetch_started_only_when_eligible
              Sleeping (AwaitFetch trackA) TimerFired rotation_AB
              (snd (loopHead rotation_AB)) eq_refl eq_refl)
    as (L & _ & _ & t & E & P).
  injection E as <-.
  split; [exact L | exact P].
Defined.

(** ** Once live *)

Lemma loopHead_live (st : State) :
  isLive st = true -> loopHead st = (Sleeping, st).
Proof. intros L. unfold loopHead. rewrite L. reflexivity. Qed.

Lemma afterTrack_live (b : bool) (st : State) :
  isLive st = true -> fst (afterTrack b st) = Sleeping.
Proof.
  intros L. unfold afterTrack. rewrite loopHead_live; [reflexivity|].
  destruct b; exact L.
Qed.

Lemma resume_rank (p p' : pc) (i : settled) (st st' : State) :
  isLive st = true ->
  resume p i st = Some (p', st') ->
  rank p' <= rank p - 1.
Proof.
  intros L H.
  assert (E : option_map fst (resume p i st) = Some p') by (rewrite H; reflexivity).
  clear H.
  destruct p, i; simpl in E; try discriminate.
  - rewrite (loopHead_live st L) in E. injection E as <-. simpl. lia.
  - injection E as <-. simpl. lia.
  - rewrite (afterTrack_live false (log LogAutoDJError st) L) in E.
    injection E as <-. simpl. lia.
  - destruct body; simpl in E.
    + rewrite (afterTrack_live true st L) in E. injection E as <-. simpl. lia.
    + rewrite (afterTrack_live false (log LogAutoDJError st) L) in E.
      injection E as <-. simpl. lia.
    + rewrite L in E. injection E as <-. simpl. lia.
  - injection E as <-. simpl. lia.
  - rewrite afterTrack_live in E by (destruct threw; exact L).
    injection E as <-. simpl. lia.
Qed.

Lemma step_stays_live (e : event) (s s' : Sys) :
  step e s = Some s' -> isLive (snd s) = true -> isLive (snd s') = true.
Proof.
  intros H L. rewrite (step_isLive e s s' H), L. reflexivity.
Qed.

Lemma run_rank (es : list event) :
  forall s s',
    isLive (snd s) = true ->
    run es s = Some s' ->
    rank (fst s') <= rank (fst s) - settles es.
Proof.
  induction es as [|e es IH]; intros s s' L H; simpl in H.
  - injection H as <-. unfold settles. simpl. lia.
  - destruct (step e s) as [s1|] eqn:E; [|discriminate].
    pose proof (IH s1 s' (step_stays_live e s s1 E L) H) as R.
    destruct s as [p st], s1 as [p1 st1]. simpl in L |- *.
    destruct e; simpl in E;
      try (injection E as <- _; unfold settles in *; simpl in *; exact R).
    pose proof (resume_rank _ _ _ _ _ L E).
    unfold settles in *. simpl in *. lia.
Qed.

Lemma run_settled_never_crashed (es : list event) :
  forall s s',
    run es s = Some s' ->
    fst s <> Crashed \/ 1 <= settles es ->
    fst s' <> Crashed.
Proof.
  induction es as [|e es IH]; intros s s' H N.
  - simpl in H. injection H as <-.
    destruct N as [N | N]; [exact N|]. unfold settles in N. simpl in N. lia.
  - simpl in H. destruct (step e s) as [s1|] eqn:E; [|discriminate].
    apply (IH s1 s' H).
    destruct N as [N | N]; [left; apply (step_never_crashes e s s1 E N)|].
    destruct (is_settle e) eqn:S.
    + left. destruct e; try discriminate S.
      destruct s as [p st], s1 as [p1 st1]. simpl in E.
      apply (resume_never_crashes _ _ _ _ _ E).
    + right. unfold settles in *. simpl in N. rewrite S in N. exact N.
Qed.

(** X3: once [isLive] is true the loop is never more than three of its own
    steps from its sleep, and it stays there: after any run that contains
    three steps of the loop, with whatever requests in between, the loop is
    at the sleep of line 95. *)
Theorem live_loop_goes_to_sleep (es : list event) (s s' : Sys) :
  isLive (snd s) = true ->
  run es s = Some s' ->
  3 <= settles es ->
  fst s' = Sleeping.
Proof.
  intros L H N.
  pose proof (run_rank es s s' L H) as R.
  assert (C : fst s' <> Crashed)
    by (apply (run_settled_never_crashed es s s' H); right; lia).
  assert (B : rank (fst s) <= 3) by (destruct (fst s); simpl; lia).
  assert (K : rank (fst s') = 0) by lia.
  destruct (fst s'); simpl in K; try discriminate K; [reflexivity|].
  now elim C.
Qed.

Lemma live_loop_goes_to_sleep_witness :
  exists s',
    run [PostLive good_push; Settle (FetchResolved (stream_of [x01; x02]));
         Settle ReadSettled; Settle ReturnSettled; Settle TimerFired]
        (loopHead rotation_AB) = Some s'
    /\ fst s' = Sleeping.
Proof.
  eexists. split; [reflexivity|].
  eapply (live_loop_goes_to_sleep
            [Settle (FetchResolved (stream_of [x01; x02]));
             Settle ReadSettled; Settle ReturnSettled; Settle TimerFired]
            (AwaitFetch trackA,
             fst (live good_push (snd (loopHead rotation_AB))))).
  - reflexivity.
  - reflexivity.
  - unfold settles. simpl. lia.
Defined.

Lemma resume_live_same (p p' : pc) (i : settled) (st st' : State) :
  isLive st = true ->
  resume p i st = Some (p', st') ->
  same_broadcast st' st.
Proof.
  intros L H.
  assert (E : option_map snd (resume p i st) = Some st') by (rewrite H; reflexivity).
  clear H. unfold same_broadcast.
  destruct p, i; simpl in E; try discriminate.
  - injection E as <-.
    rewrite loopHead_listeners, loopHead_isLive, loopHead_liveTitle,
      loopHead_tracks. repeat split.
  - injection E as <-. repeat split.
  - injection E as <-. unfold afterTrack.
    rewrite loopHead_listeners, loopHead_isLive, loopHead_liveTitle,
      loopHead_tracks. repeat split.
  - destruct body; simpl in E.
    + injection E as <-. unfold afterTrack.
      rewrite loopHead_listeners, loopHead_isLive, loopHead_liveTitle,
        loopHead_tracks. repeat split.
    + injection E as <-. unfold afterTrack.
      rewrite loopHead_listeners, loopHead_isLive, loopHead_liveTitle,
        loopHead_tracks. repeat split.
    + rewrite L in E. injection E as <-. repeat split.
  - injection E as <-. repeat split.
  - injection E as <-. unfold afterTrack.
    rewrite loopHead_listeners, loopHead_isLive, loopHead_liveTitle,
      loopHead_tracks. destruct threw; repeat split.
Qed.

Lemma same_broadcast_trans (a b c : State) :
  same_broadcast a b -> same_broadcast b c -> same_broadcast a c.
Proof.
  unfold same_broadcast. intros (A1 & A2 & A3 & A4) (B1 & B2 & B3 & B4).
  repeat split; congruence.
Qed.

Lemma handler_step_same (e : event) (p1 p2 : pc) (st1 st2 : State) (s1' : Sys) :
  is_settle e = false ->
  same_broadcast st1 st2 ->
  step e (p1, st1) = Some s1' ->
  exists st2', step e (p2, st2) = Some (p2, st2')
               /\ same_broadcast (snd s1') st2'.
Proof.
  intros S R H.
  destruct st1 as [l1 v1 t1 c1 n1 k1], st2 as [l2 v2 t2 c2 n2 k2].
  unfold same_broadcast in R. simpl in R. destruct R as (-> & -> & -> & ->).
  unfold same_broadcast.
  destruct e; try discriminate S; simpl in H; injection H as <-;
    eexists; (split; [reflexivity|]); simpl;
    unfold live, post_live, post_live_unparsed, update_live_title, loadRSS;
    simpl;
    break_match; repeat split.
Qed.

Lemma run_live_handlers_only (es : list event) :
  forall s t s',
    same_broadcast (snd s) (snd t) ->
    isLive (snd s) = true ->
    run es s = Some s' ->
    exists t', run (handlers_only es) t = Some t'
               /\ same_broadcast (snd s') (snd t').
Proof.
  induction es as [|e es IH]; intros s t s' R L H; simpl in H.
  - injection H as <-. exists t. split; [reflexivity | exact R].
  - destruct (step e s) as [s1|] eqn:E; [|discriminate].
    pose proof (step_stays_live e s s1 E L) as L1.
    destruct (is_settle e) eqn:S.
    + unfold handlers_only. simpl. rewrite S. simpl.
      apply (IH s1 t s'); [|exact L1 | exact H].
      destruct e; try discriminate S.
      destruct s as [p st], s1 as [p1 st1]. simpl in *.
      apply (same_broadcast_trans st1 st (snd t));
        [apply (resume_live_same _ _ _ _ _ L E) | exact R].
    + unfold handlers_only. simpl. rewrite S. simpl.
      destruct s as [p st], t as [q st2]. simpl in R.
      destruct (handler_step_same e p q st st2 s1 S R E) as (st2' & E2 & R').
      rewrite E2.
      apply (IH s1 (q, st2') s'); [exact R' | exact L1 | exact H].
Qed.

(** X4: once [isLive] is true the AutoDJ loop is out of the programme:
    striking the steps of the loop from any run leaves a run of the handlers
    alone that ends with the same listeners (every sink with the same chunks
    received), the same [isLive], the same live title and the same catalog.
    The loop writes to no sink while [isLive] is true. *)
Theorem live_run_ignores_loop (es : list event) (s s' : Sys) :
  isLive (snd s) = true ->
  run es s = Some s' ->
  exists t', run (handlers_only es) s = Some t'
             /\ same_broadcast (snd s') (snd t').
Proof.
  intros L H.
  apply (run_live_handlers_only es s s s'); [|exact L | exact H].
  unfold same_broadcast. repeat split.
Qed.

Lemma live_run_ignores_loop_witness :
  exists t',
    run (handlers_only push_between_steps) live_mid_track = Some t'
    /\ listeners (snd t') = [mkSink 0 Delivers [x01; x01]].
Proof.
  destruct (live_run_ignores_loop push_between_steps live_mid_track
              (Sleeping,
               mkState [mkSink 0 Delivers [x01; x01]] true [trackA; trackB] 0
                       (Js.Str "Sunday") [LogPlaying (Js.Str "A")])
              eq_refl eq_refl) as (t' & R & (E & _)).
  exists t'. split; [exact R | symmetry; exact E].
Defined.

Lemma extended_nil (r : Sink) : extended [] r = r.
Proof.
  unfold extended. destruct r as [i m rc]. simpl.
  destruct m; [rewrite List.app_nil_r|..]; reflexivity.
Qed.

Lemma extended_written (c : chunk) (bs : list chunk) (r : Sink) :
  extended bs (written c r) = extended (c :: bs) r.
Proof.
  unfold extended, written, write. destruct (mode r) eqn:M; simpl; rewrite ?M.
  - rewrite <- List.app_assoc. reflexivity.
  - reflexivity.
  - reflexivity.
Qed.

Lemma heard_extended (bs : list chunk) :
  forall ls, heard bs ls = List.map (extended bs) ls.
Proof.
  induction bs as [|c bs IH]; intros ls; simpl.
  - rewrite (List.map_ext _ (fun r => r) extended_nil). symmetry. apply List.map_id.
  - rewrite IH, List.map_map. apply List.map_ext. intros r.
    apply extended_written.
Qed.

Lemma step_live_listeners (e : event) (s s' : Sys) :
  isLive (snd s) = true ->
  Forall (fun r => raises r = false) (listeners (snd s)) ->
  changes_members e = false ->
  step e s = Some s' ->
  listeners (snd s') = heard (pushed [e]) (listeners (snd s)).
Proof.
  destruct s as [p st], s' as [p' st']. simpl. intros L Q C H.
  destruct e; try discriminate C; simpl in H; unfold pushed; simpl;
    try (new_state H; reflexivity).
  - destruct (resume_live_same _ _ _ _ _ L H) as (E & _). exact E.
  - new_state H. unfold live, accepted.
    destruct (basicAuthMiddleware req);
      [destruct (parsed req); reflexivity|].
    destruct (parsed req) as [code| |code|body|]; try reflexivity.
    + apply post_live_unparsed_listeners.
    + simpl. unfold post_live.
      change (listeners (set_isLive true st)) with (listeners st).
      rewrite (forEach_write_quiet body _ Q). reflexivity.
    + apply post_live_unparsed_listeners.
  - new_state H. unfold update_live_title. break_match; reflexivity.
  - new_state H. destruct o; simpl; try reflexivity.
    destruct (tracks_of_result result); reflexivity.
Qed.

Lemma pushed_cons (e : event) (es : list event) :
  pushed (e :: es) = pushed [e] ++ pushed es.
Proof. unfold pushed. simpl. rewrite List.app_nil_r. reflexivity. Qed.

(** X5: once [isLive] is true, and as long as no listener connects or
    disconnects and no registered sink raises, what every sink has received
    after a run is what it had received before followed by the chunks of
    the accepted pushes, in the order of the pushes and with nothing from
    the AutoDJ in between; a sink whose connection discards stays as it
    was. *)
Theorem pushes_arrive_in_order (es : list event) :
  forall s s',
    isLive (snd s) = true ->
    Forall (fun r => raises r = false) (listeners (snd s)) ->
    Forall (fun e => changes_members e = false) es ->
    run es s = Some s' ->
    listeners (snd s') = List.map (extended (pushed es)) (listeners (snd s)).
Proof.
  induction es as [|e es IH]; intros s s' L Q C H; simpl in H.
  - injection H as <-. rewrite <- heard_extended. reflexivity.
  - destruct (step e s) as [s1|] eqn:E; [|discriminate].
    inversion C as [|e0 es0 Ce Ces]; subst.
    pose proof (step_live_listeners e s s1 L Q Ce E) as K.
    rewrite (IH s1 s' (step_stays_live e s s1 E L)); [| |exact Ces | exact H].
    + rewrite K, <- !heard_extended, (pushed_cons e es), heard_app. reflexivity.
    + rewrite K. apply heard_quiet, Q.
Qed.

Lemma pushes_arrive_in_order_witness :
  exists s',
    run push_between_steps live_mid_track = Some s'
    /\ listeners (snd s') = [mkSink 0 Delivers [x01; x01]].
Proof.
  eexists. split; [reflexivity|].
  apply (pushes_arrive_in_order push_between_steps live_mid_track).
  - reflexivity.
  - repeat constructor.
  - repeat constructor.
  - reflexivity.
Defined.

(** ** The listener list *)

Lemma resume_sids (p p' : pc) (i : settled) (st st' : State) :
  resume p i st = Some (p', st') ->
  List.map sid (listeners st') = List.map sid (listeners st).
Proof.
  intros H.
  destruct p, i; simpl in H; try discriminate.
  - new_state H. now rewrite loopHead_listeners.
  - new_state H. reflexivity.
  - new_state H. unfold afterTrack. now rewrite loopHead_listeners.
  - destruct body.
    + new_state H. unfold afterTrack. rewrite loopHead_listeners. reflexivity.
    + new_state H. unfold afterTrack. now rewrite loopHead_listeners.
    + destruct (isLive st); [new_state H; reflexivity|].
      destruct (Nat.eqb _ 0); [new_state H; reflexivity|].
      pose proof (forEach_write_sids c (listeners st)) as K.
      destruct (forEach_write (listeners st) c) as [ls []];
        new_state H; exact K.
  - new_state H. reflexivity.
  - new_state H. unfold afterTrack. rewrite loopHead_listeners.
    destruct threw; reflexivity.
Qed.

Lemma live_sids (req : LiveRequest) (st : State) :
  List.map sid (listeners (fst (live req st))) = List.map sid (listeners st).
Proof.
  unfold live.
  destruct (basicAuthMiddleware req); [destruct (parsed req); reflexivity|].
  destruct (parsed req) as [code| |code|body|]; try reflexivity.
  - now rewrite post_live_unparsed_listeners.
  - unfold post_live.
    change (listeners (set_isLive true st)) with (listeners st).
    pose proof (forEach_write_sids body (listeners st)) as K.
    destruct (forEach_write (listeners st) body) as [ls []]; exact K.
  - now rewrite post_live_unparsed_listeners.
Qed.

Lemma on_close_sids (id : nat) (st : State) :
  List.map sid (listeners (on_close id st))
  = List.filter (fun i => negb (Nat.eqb i id)) (List.map sid (listeners st)).
Proof.
  unfold on_close. simpl.
  induction (listeners st) as [|r rest IH]; simpl; [reflexivity|].
  destruct (Nat.eqb (sid r) id); simpl; now rewrite IH.
Qed.

Lemma step_sids (e : event) (s s' : Sys) :
  step e s = Some s' ->
  List.map sid (listeners (snd s'))
  = member_step (List.map sid (listeners (snd s))) e.
Proof.
  destruct s as [p st], s' as [p' st']. simpl. intros H.
  destruct e; simpl in H; simpl member_step;
    try (new_state H; reflexivity).
  - apply (resume_sids _ _ _ _ _ H).
  - new_state H. apply live_sids.
  - new_state H. unfold listen. simpl. apply List.map_app.
  - new_state H. apply on_close_sids.
  - new_state H. unfold update_live_title. break_match; reflexivity.
  - new_state H. destruct o; simpl; try reflexivity.
    destruct (tracks_of_result result); reflexivity.
Qed.

(** X6: who is registered depends on the connects and the closes alone.
    After any run the registered ids are the ids before, with the id of
    every [/listen] appended and the id of every close removed, in the order
    of the run: neither a broadcast, nor the loop, nor any other route
    registers, removes or reorders a sink. *)
Theorem membership_by_connections (es : list event) :
  forall s s',
    run es s = Some s' ->
    List.map sid (listeners (snd s'))
    = members es (List.map sid (listeners (snd s))).
Proof.
  induction es as [|e es IH]; intros s s' H; simpl in H.
  - injection H as <-. reflexivity.
  - destruct (step e s) as [s1|] eqn:E; [|discriminate].
    rewrite (IH s1 s' H), (step_sids e s s1 E). reflexivity.
Qed.

Lemma membership_by_connections_witness :
  exists s',
    run comings_and_goings (loopHead rotation_AB) = Some s'
    /\ List.map sid (listeners (snd s')) = [1].
Proof.
  eexists. split; [reflexivity|].
  apply (membership_by_connections comings_and_goings (loopHead rotation_AB)).
  reflexivity.
Defined.

Lemma member_step_NoDup (e : event) (ids : list nat) :
  NoDup ids ->
  match e with
  | GetListen res => ~ In (sid res) ids
  | _ => True
  end ->
  NoDup (member_step ids e).
Proof.
  intros N F. destruct e; simpl; try exact N.
  - apply List.NoDup_app; [exact N | repeat constructor; intros [] |].
    intros a Ha [<- | []]. exact (F Ha).
  - apply List.NoDup_filter, N.
Qed.

(** X7: as long as every response object that connects is a new one, no
    sink is registered twice, whatever else happens in between. *)
Theorem no_sink_registered_twice (es : list event) :
  forall s s',
    NoDup (List.map sid (listeners (snd s))) ->
    fresh_listens es (List.map sid (listeners (snd s))) ->
    run es s = Some s' ->
    NoDup (List.map sid (listeners (snd s'))).
Proof.
  induction es as [|e es IH]; intros s s' N F H; simpl in H.
  - injection H as <-. exact N.
  - destruct (step e s) as [s1|] eqn:E; [|discriminate].
    destruct F as [Fe F].
    apply (IH s1 s'); [| |exact H]; rewrite (step_sids e s s1 E).
    + apply member_step_NoDup; assumption.
    + exact F.
Qed.

Lemma no_sink_registered_twice_witness :
  exists s',
    run comings_and_goings (loopHead rotation_AB) = Some s'
    /\ NoDup (List.map sid (listeners (snd s'))).
Proof.
  eexists. split; [reflexivity|].
  apply (no_sink_registered_twice comings_and_goings (loopHead rotation_AB)).
  - repeat constructor. intros [].
  - simpl. repeat split. intros [E | []]. discriminate E.
  - reflexivity.
Defined.

Lemma filter_other_ids (id : nat) (ls : list Sink) :
  ~ In id (List.map sid ls) ->
  List.filter (fun r => negb (Nat.eqb (sid r) id)) ls = ls.
Proof.
  induction ls as [|r rest IH]; simpl; intros N; [reflexivity|].
  destruct (Nat.eqb_spec (sid r) id) as [E | E].
  - elim N. left. exact E.
  - simpl. rewrite IH; [reflexivity|]. intros K. apply N. right. exact K.
Qed.

(** X8: closing is the inverse of connecting.  When the id is not yet
    registered, a connect followed by the close of that sink gives back the
    very state; the close of an id that is not registered changes nothing;
    a second close of the same id changes nothing; and after a close the id
    is not registered, while every other sink is kept as it was. *)
Theorem listen_close_round_trip (id : nat) (st : State) :
  (forall res,
      sid res = id ->
      ~ In id (List.map sid (listeners st)) ->
      on_close id (listen res st) = st)
  /\ (~ In id (List.map sid (listeners st)) -> on_close id st = st)
  /\ on_close id (on_close id st) = on_close id st
  /\ ~ In id (List.map sid (listeners (on_close id st)))
  /\ (forall r, In r (listeners st) -> sid r <> id ->
                In r (listeners (on_close id st))).
Proof.
  assert (Gone : ~ In id (List.map sid (listeners (on_close id st)))).
  { rewrite on_close_sids. intros K. apply List.filter_In in K.
    destruct K as [_ K]. rewrite Nat.eqb_refl in K. discriminate K. }
  assert (Noop : forall st0, ~ In id (List.map sid (listeners st0)) ->
                             on_close id st0 = st0).
  { intros st0 N. unfold on_close. rewrite (filter_other_ids id _ N).
    apply set_listeners_same. }
  split; [|split; [|split; [|split]]].
  - intros res E N. destruct st as [l v t c n k].
    unfold on_close, listen, set_listeners. simpl in *.
    rewrite List.filter_app, (filter_other_ids id _ N). simpl.
    rewrite E, Nat.eqb_refl. simpl. rewrite List.app_nil_r. reflexivity.
  - apply Noop.
  - apply Noop. exact Gone.
  - exact Gone.
  - intros r I N. unfold on_close. simpl. apply List.filter_In.
    split; [exact I|]. apply Nat.eqb_neq in N. rewrite N. reflexivity.
Qed.

Lemma listen_close_round_trip_witness :
  on_close 7 (listen (mkSink 7 Delivers []) rotation_AB) = rotation_AB.
Proof.
  destruct (listen_close_round_trip 7 rotation_AB) as (H & _).
  apply H; [reflexivity|].
  simpl. intros [E | []]. discriminate E.
Defined.

(** ** Joining and leaving in the middle of a track *)

Lemma stream_prefix (t : Track) (tail : stream) (body : list chunk) :
  forall st,
    isLive st = false ->
    listeners st <> [] ->
    Forall (fun r => raises r = false) (listeners st) ->
    run (reads (List.length body)) (AwaitChunk t (stream_then body tail), st)
    = Some (AwaitChunk t tail, set_listeners (heard body (listeners st)) st).
Proof.
  induction body as [|c body IH]; intros st L N Q.
  - simpl. rewrite set_listeners_same. reflexivity.
  - change (reads (List.length (c :: body)))
      with (Settle ReadSettled :: reads (List.length body)).
    change (stream_then (c :: body) tail) with (SChunk c (stream_then body tail)).
    cbn [run step resume]. rewrite L, (length_nonempty _ N).
    rewrite (forEach_write_quiet c _ Q).
    rewrite IH.
    + reflexivity.
    + exact L.
    + simpl. apply (nonempty_length (listeners st)); [apply length_map | exact N].
    + simpl. apply written_quiet, Q.
Qed.

Lemma extended_app (b1 b2 : list chunk) (r : Sink) :
  extended b2 (extended b1 r) = extended (b1 ++ b2) r.
Proof.
  unfold extended. destruct (mode r) eqn:M; simpl; rewrite ?M.
  - rewrite List.app_assoc. reflexivity.
  - reflexivity.
  - reflexivity.
Qed.

Lemma stream_of_app (b1 b2 : list chunk) :
  stream_of (b1 ++ b2) = stream_then b1 (stream_of b2).
Proof. unfold stream_of, stream_then. apply List.fold_right_app. Qed.

(** X9: no rewind for a listener who joins in the middle of a track.  When
    a sink connects after the chunks [b1] of a body have gone out, and the
    rest [b2] is then read to its end, the listeners who were there have
    received [b1] and then [b2], and the newcomer has received [b2] only;
    the track counts as played. *)
Theorem late_joiner_gets_remainder (t : Track) (b1 b2 : list chunk)
    (res : Sink) (st : State) :
  isLive st = false ->
  listeners st <> [] ->
  Forall (fun r => raises r = false) (listeners st) ->
  raises res = false ->
  run (reads (List.length b1)
       ++ GetListen res :: reads (S (List.length b2)))
      (AwaitChunk t (stream_of (b1 ++ b2)), st)
  = Some (afterTrack true
            (set_listeners
               (List.map (extended (b1 ++ b2)) (listeners st)
                ++ [extended b2 res])
               st)).
Proof.
  intros L N Q R.
  rewrite run_app, stream_of_app, (stream_prefix t _ b1 st L N Q).
  change (run (GetListen res :: ?es) (?p, ?x))
    with (run es (p, listen res x)).
  unfold reads. rewrite stream_uninterrupted.
  - unfold listen. simpl.
    rewrite !heard_extended, List.map_app, List.map_map. simpl.
    rewrite (List.map_ext (fun r => extended b2 (extended b1 r))
               (extended (b1 ++ b2))).
    + reflexivity.
    + intros r. apply extended_app.
  - exact L.
  - simpl. destruct (heard b1 (listeners st)); discriminate.
  - simpl. apply List.Forall_app. split.
    + apply heard_quiet, Q.
    + repeat constructor. exact R.
Qed.

Lemma late_joiner_gets_remainder_witness :
  run (reads 1 ++ GetListen (mkSink 1 Delivers []) :: reads 3)
      (AwaitChunk trackA (stream_of ([x01] ++ [x02; x03])), rotation_AB)
  = Some (afterTrack true
            (set_listeners
               [mkSink 0 Delivers [x01; x02; x03];
                mkSink 1 Delivers [x02; x03]]
               rotation_AB)).
Proof.
  apply (late_joiner_gets_remainder trackA [x01] [x02; x03]
           (mkSink 1 Delivers []) rotation_AB).
  - reflexivity.
  - discriminate.
  - repeat constructor.
  - reflexivity.
Defined.

Lemma loopHead_nobody (st : State) :
  listeners st = [] -> loopHead st = (Sleeping, st).
Proof.
  intros N. unfold loopHead. rewrite N. simpl.
  destruct (isLive st || Nat.eqb (List.length (autodjTracks st)) 0); reflexivity.
Qed.

(** X10: a track whose listeners have all left is not held back.  With
    [isLive] false and nobody registered, every chunk that comes up is
    dropped for one sleep, the body is consumed to its end at one chunk per
    sleep, no sink is written, and the track counts as played: the cursor
    moves on by one and the loop goes to sleep. *)
Theorem track_played_to_nobody (t : Track) (body : list chunk) :
  forall st,
    isLive st = false ->
    listeners st = [] ->
    run (sleeps (List.length body) ++ [Settle ReadSettled])
        (AwaitChunk t (stream_of body), st)
    = Some (Sleeping, incr_currentAutoDJIndex st).
Proof.
  induction body as [|c body IH]; intros st L N.
  - simpl. unfold afterTrack. rewrite loopHead_nobody; [reflexivity | exact N].
  - change (sleeps (List.length (c :: body)))
      with (Settle ReadSettled :: Settle TimerFired
            :: sleeps (List.length body)).
    change (stream_of (c :: body)) with (SChunk c (stream_of body)).
    cbn [run step resume app]. rewrite L, N. simpl Nat.eqb. cbn iota.
    cbn [run step resume]. apply (IH st L N).
Qed.

Lemma track_played_to_nobody_witness :
  run (sleeps 2 ++ [Settle ReadSettled])
      (AwaitChunk trackA (stream_of [x01; x02]),
       mkState [] false [trackA; trackB] 0 (Js.Str EmptyString) [])
  = Some (Sleeping, mkState [] false [trackA; trackB] 1 (Js.Str EmptyString) []).
Proof.
  apply (track_played_to_nobody trackA [x01; x02]); reflexivity.
Defined.

(** ** The status route and the loop *)

(** X11: [/current-track] always answers, with 200 or 404 (its index is in
    range whenever it is used), and when [isLive] is false it names the
    track at the cursor, which is the track the loop fetches whenever it
    starts one. *)
Theorem current_track_agrees_with_loop (st : State) :
  (exists r, current_track st = Sent r /\ (status r = 200 \/ status r = 404))
  /\ (forall t, isLive st = false ->
                pick (autodjTracks st) (currentAutoDJIndex st) = Some t ->
                current_track st = Sent (now_playing (title t)))
  /\ (forall t, fst (loopHead st) = AwaitFetch t ->
                current_track st = Sent (now_playing (title t))).
Proof.
  assert (P : forall t, isLive st = false ->
                pick (autodjTracks st) (currentAutoDJIndex st) = Some t ->
                current_track st = Sent (now_playing (title t))).
  { intros t L K. unfold current_track. rewrite L.
    destruct (autodjTracks st) as [|t0 ts] eqn:T.
    - unfold pick in K. simpl in K. destruct (currentAutoDJIndex st); discriminate K.
    - simpl Nat.eqb. cbn iota. unfold pick in K. rewrite K. reflexivity. }
  split; [|split; [exact P|]].
  - unfold current_track.
    destruct (isLive st) eqn:L.
    + destruct (Js.truthy (liveTitle st)); eexists; split; try reflexivity;
        simpl; auto.
    + destruct (autodjTracks st) as [|t0 ts] eqn:T.
      * eexists; split; [reflexivity | simpl; auto].
      * destruct (pick_some (t0 :: ts) (currentAutoDJIndex st)) as [t K];
          [discriminate|].
        simpl Nat.eqb. cbn iota. unfold pick in K. rewrite K.
        eexists; split; [reflexivity | simpl; auto].
  - intros t F.
    assert (F' : fetching (fst (loopHead st)) = true) by (rewrite F; reflexivity).
    destruct (loopHead_fetching st F') as (L & _ & _ & t' & K & E).
    rewrite E in F. injection F as ->. apply (P t L K).
Qed.

Lemma current_track_agrees_with_loop_witness :
  current_track rotation_AB = Sent (now_playing (Js.Str "A")).
Proof.
  destruct (current_track_agrees_with_loop rotation_AB) as (_ & _ & H).
  apply (H trackA). reflexivity.
Defined.

Lemma step_liveTitle (e : event) (s s' : Sys) :
  step e s = Some s' ->
  liveTitle (snd s') = liveTitle (snd s)
  \/ Js.truthy (liveTitle (snd s')) = true.
Proof.
  destruct s as [p st], s' as [p' st']. simpl. intros H.
  destruct e; simpl in H; try (new_state H; left; reflexivity).
  - left. destruct p, i; simpl in H; try discriminate;
      try (new_state H; unfold afterTrack;
           rewrite ?loopHead_liveTitle; reflexivity).
    + destruct body;
        try (new_state H; unfold afterTrack;
             rewrite ?loopHead_liveTitle; reflexivity).
      destruct (isLive st); [new_state H; reflexivity|].
      destruct (Nat.eqb _ 0); [new_state H; reflexivity|].
      destruct (forEach_write (listeners st) c) as [ls []];
        new_state H; reflexivity.
    + new_state H. unfold afterTrack. rewrite loopHead_liveTitle.
      destruct threw; reflexivity.
  - new_state H. left. unfold live, post_live, post_live_unparsed. break_match; reflexivity.
  - new_state H. unfold update_live_title.
    destruct (negb (Js.truthy (Js.assoc "title" body))
              || negb (Js.is_string (Js.assoc "title" body))) eqn:G;
      [left; reflexivity|].
    right. apply orb_false_elim in G. destruct G as [G _]. simpl.
    now destruct (Js.truthy (Js.assoc "title" body)).
  - new_state H. left. destruct o; simpl; try reflexivity.
    destruct (tracks_of_result result); reflexivity.
Qed.

(** X12: a live title cannot be taken back.  Once [liveTitle] is not empty
    it is not empty in any later state, since the title route refuses the
    empty string and nothing else writes the variable; so once the stream is
    live with a title, [/current-track] answers 200 with the title of the
    moment for the rest of the run, and never the 404 [no title set]. *)
Theorem live_title_never_cleared (es : list event) :
  forall s s',
    run es s = Some s' ->
    Js.truthy (liveTitle (snd s)) = true ->
    Js.truthy (liveTitle (snd s')) = true
    /\ (isLive (snd s) = true ->
        current_track (snd s') = Sent (now_playing (liveTitle (snd s')))).
Proof.
  induction es as [|e es IH]; intros s s' H T; simpl in H.
  - injection H as <-. split; [exact T|].
    intros L. unfold current_track. rewrite L, T. reflexivity.
  - destruct (step e s) as [s1|] eqn:E; [|discriminate].
    assert (T1 : Js.truthy (liveTitle (snd s1)) = true).
    { destruct (step_liveTitle e s s1 E) as [K | K]; [rewrite K; exact T | exact K]. }
    destruct (IH s1 s' H T1) as (T' & C).
    split; [exact T'|].
    intros L. apply C. apply (step_stays_live e s s1 E L).
Qed.

Lemma live_title_never_cleared_witness :
  exists s',
    run (PostUpdateLiveTitle empty_title :: push_between_steps) live_mid_track
    = Some s'
    /\ current_track (snd s') = Sent (now_playing (Js.Str "Sunday")).
Proof.
  eexists. split; [reflexivity|].
  apply (live_title_never_cleared
           (PostUpdateLiveTitle empty_title :: push_between_steps)
           live_mid_track); reflexivity.
Defined.

(** ** The catalog *)

Lemma resume_tracks (p p' : pc) (i : settled) (st st' : State) :
  resume p i st = Some (p', st') -> autodjTracks st' = autodjTracks st.
Proof.
  intros H.
  destruct p, i; simpl in H; try discriminate;
    try (new_state H; unfold afterTrack; rewrite ?loopHead_tracks; reflexivity).
  - destruct body;
      try (new_state H; unfold afterTrack; rewrite ?loopHead_tracks; reflexivity).
    destruct (isLive st); [new_state H; reflexivity|].
    destruct (Nat.eqb _ 0); [new_state H; reflexivity|].
    destruct (forEach_write (listeners st) c) as [ls []];
      new_state H; reflexivity.
  - new_state H. unfold afterTrack. rewrite loopHead_tracks.
    destruct threw; reflexivity.
Qed.

Lemma step_tracks (e : event) (s s' : Sys) :
  step e s = Some s' ->
  autodjTracks (snd s') = catalog_step (autodjTracks (snd s)) e.
Proof.
  destruct s as [p st], s' as [p' st']. simpl. intros H.
  destruct e; simpl in H; simpl catalog_step;
    try (new_state H; reflexivity).
  - apply (resume_tracks _ _ _ _ _ H).
  - new_state H. unfold live, post_live, post_live_unparsed. break_match; reflexivity.
  - new_state H. unfold update_live_title. break_match; reflexivity.
  - new_state H. destruct o; simpl; try reflexivity.
    destruct (tracks_of_result result); reflexivity.
Qed.

(** X13: the catalog is only ever replaced whole, and only by a refresh.
    After any run it is what the last refresh that got through its mapping
    produced, or the catalog from before the run when there was none: a
    refresh that fails, the loop, a push, a connect, a close and the other
    routes leave it as it is, and the cursor is not reset by a refresh. *)
Theorem catalog_replaced_only_by_refresh (es : list event) :
  forall s s',
    run es s = Some s' ->
    autodjTracks (snd s') = catalog_after es (autodjTracks (snd s))
    /\ currentAutoDJIndex (snd s')
       = currentAutoDJIndex (snd s) + full_plays es s.
Proof.
  intros s s' H. split; [|apply (run_cursor es s s' H)].
  revert s s' H.
  induction es as [|e es IH]; intros s s' H; simpl in H.
  - injection H as <-. reflexivity.
  - destruct (step e s) as [s1|] eqn:E; [|discriminate].
    rewrite (IH s1 s' H), (step_tracks e s s1 E). reflexivity.
Qed.

Lemma catalog_replaced_only_by_refresh_witness :
  exists s',
    run [RssSettled (RssParsed (feed_with "Station" [feed_item trackB]));
         RssSettled RssParseError;
         RssSettled (RssParsed feed_without_items);
         PostLive good_push]
        (loopHead rotation_AB) = Some s'
    /\ autodjTracks (snd s') = [trackB]
    /\ currentAutoDJIndex (snd s') = 0.
Proof.
  eexists. split; [reflexivity|].
  apply (catalog_replaced_only_by_refresh
           [RssSettled (RssParsed (feed_with "Station" [feed_item trackB]));
            RssSettled RssParseError;
            RssSettled (RssParsed feed_without_items);
            PostLive good_push]
           (loopHead rotation_AB)).
  reflexivity.
Defined.

Lemma track_of_feed_item (t : Track) : track_of_item (feed_item t) = Some t.
Proof. destruct t as [ti u]. reflexivity. Qed.

Lemma map_items_feed (ts : list Track) :
  map_items (List.map feed_item ts) = Some ts.
Proof.
  induction ts as [|t ts IH]; [reflexivity|].
  cbn [List.map map_items]. rewrite track_of_feed_item, IH. reflexivity.
Qed.

Lemma map_items_bad (item : Js.value) (items : list Js.value) :
  In item items -> track_of_item item = None -> map_items items = None.
Proof.
  induction items as [|i items IH]; intros I B; [destruct I|].
  cbn [map_items]. destruct I as [-> | I].
  - rewrite B. reflexivity.
  - destruct (track_of_item i); [|reflexivity].
    rewrite (IH I B). reflexivity.
Qed.

(** X14: a refresh reads the feed item by item, in feed order.  For a parsed
    feed whose items each carry a title and an enclosure with a url, the
    catalog after the refresh is exactly those titles and urls in the order
    of the feed, whatever the catalog was before, and the console reports
    their number. *)
Theorem loadRSS_reads_feed_in_order (station : string) (ts : list Track)
    (st : State) :
  autodjTracks (loadRSS (RssParsed (feed_with station (List.map feed_item ts))) st)
  = ts
  /\ console (loadRSS (RssParsed (feed_with station (List.map feed_item ts))) st)
     = console st ++ [LogLoaded (List.length ts)].
Proof.
  unfold loadRSS, tracks_of_result, feed_with. simpl.
  rewrite map_items_feed. split; reflexivity.
Qed.

(** X15: a refresh is all or nothing.  When one item of the feed lacks its
    title or its enclosure, the mapping raises at that item and the catalog,
    the cursor and the listeners are what they were: no catalog is ever
    made of the items that could be read. *)
Theorem loadRSS_all_or_nothing (station : string) (item : Js.value)
    (items : list Js.value) (st : State) :
  In item items ->
  track_of_item item = None ->
  autodjTracks (loadRSS (RssParsed (feed_with station items)) st)
  = autodjTracks st
  /\ currentAutoDJIndex (loadRSS (RssParsed (feed_with station items)) st)
     = currentAutoDJIndex st
  /\ listeners (loadRSS (RssParsed (feed_with station items)) st)
     = listeners st.
Proof.
  intros I B. apply loadRSS_failure_keeps_catalog.
  unfold failed, tracks_of_result, feed_with. simpl.
  apply (map_items_bad item items I B).
Qed.

Lemma loadRSS_all_or_nothing_witness :
  autodjTracks
    (loadRSS (RssParsed (feed_with "Station"
                [feed_item trackB; item_without_enclosure; feed_item trackA]))
       rotation_AB)
  = [trackA; trackB].
Proof.
  apply (loadRSS_all_or_nothing "Station" item_without_enclosure
           [feed_item trackB; item_without_enclosure; feed_item trackA]
           rotation_AB).
  - right. left. reflexivity.
  - reflexivity.
Defined.

(** ** The gate of [/live], once more *)

Lemma accepted_user (req : LiveRequest) :
  basicAuthMiddleware req = None <-> user req = Some the_credentials.
Proof.
  unfold basicAuthMiddleware, the_credentials.
  destruct (user req) as [[n p]|]; simpl; [|split; discriminate].
  destruct (String.eqb_spec n "supernatural") as [-> | Nn]; simpl.
  - destruct (String.eqb_spec p "supernatural") as [-> | Np]; simpl.
    + split; reflexivity.
    + split; [discriminate | intros E; injection E as E; now elim Np].
  - split; [discriminate | intros E; injection E as E _; now elim Nn].
Qed.

(** X16: the gates of [/live] are passed in the order of the source:
    [express.json()] of line 24, then the credentials, then [express.raw].
    A body the first refuses is answered with the error of that parser,
    whatever the credentials.  Otherwise exactly one pair of credentials,
    compared character by character, gets past the middleware: any other is
    answered 401, also when the body would be refused by [express.raw]; and
    with the right pair a body [express.raw] refuses is answered with the
    error of that parser.  None of these requests changes anything.  A push
    that reaches the handler without a Buffer (parsed as JSON, or taken by
    neither parser) still sets [isLive] and writes to no sink: the handler
    raises when a listener is registered and answers 200 when none is. *)
Theorem live_gate_exact (req : LiveRequest) (st : State) :
  (accepted req = true
   <-> user req = Some the_credentials
       /\ (forall code, parsed req <> JsonRefused code)
       /\ (forall code, parsed req <> RawRefused code))
  /\ (forall code, parsed req = JsonRefused code ->
                   live req st = (st, Refused code))
  /\ ((forall code, parsed req <> JsonRefused code) ->
      user req <> Some the_credentials ->
      live req st = (st, Sent challenge))
  /\ (forall code, user req = Some the_credentials ->
                   parsed req = RawRefused code ->
                   live req st = (st, Refused code))
  /\ (user req = Some the_credentials ->
      parsed req = JsonParsed \/ parsed req = Unparsed ->
      live req st
      = (set_isLive true st,
         match listeners st with
         | [] => Sent (mkResponse 200 [] (Text "OK"))
         | _ :: _ => Escaped
         end)).
Proof.
  pose proof (accepted_user req) as A.
  split; [|split; [|split; [|split]]].
  - unfold accepted.
    destruct (basicAuthMiddleware req) as [r|] eqn:B.
    + split; [discriminate|]. intros (U & _).
      apply A in U. discriminate U.
    + assert (U : user req = Some the_credentials) by now apply A.
      destruct (parsed req) as [code| |code|c|].
      * split; [discriminate | intros (_ & N & _); now elim (N code)].
      * split; [intros _; repeat split; [exact U | discriminate..]
               | reflexivity].
      * split; [discriminate | intros (_ & _ & N); now elim (N code)].
      * split; [intros _; repeat split; [exact U | discriminate..]
               | reflexivity].
      * split; [intros _; repeat split; [exact U | discriminate..]
               | reflexivity].
  - intros code P. unfold live. rewrite P. reflexivity.
  - intros NJ N. unfold live.
    destruct (basicAuthMiddleware req) as [r|] eqn:B.
    + assert (r = challenge) as ->.
      { unfold basicAuthMiddleware in B.
        destruct (user req); [|now injection B].
        destruct (_ || _); [now injection B | discriminate B]. }
      destruct (parsed req) as [code| |code|c|]; try reflexivity.
      now elim (NJ code).
    + elim N. now apply A.
  - intros code U P. unfold live. rewrite (proj2 A U), P. reflexivity.
  - intros U P. unfold live, post_live_unparsed. rewrite (proj2 A U).
    change (listeners (set_isLive true st)) with (listeners st).
    destruct P as [-> | ->]; destruct (listeners st); reflexivity.
Qed.

Lemma live_gate_exact_witness :
  live capitals rotation_AB = (rotation_AB, Sent challenge)
  /\ live no_body rotation_AB = (set_isLive true rotation_AB, Escaped).
Proof.
  split.
  - destruct (live_gate_exact capitals rotation_AB) as (_ & _ & H & _).
    apply H; discriminate.
  - destruct (live_gate_exact no_body rotation_AB) as (_ & _ & _ & _ & H).
    apply H; [reflexivity | right; reflexivity].
Defined.

(** ** The contact form *)



(** ** The newsletter *)



(** ** A track that cannot be fetched *)

Lemma rejected_fetch_retries (t : Track) (st : State) :
  isLive st = false ->
  listeners st <> [] ->
  pick (autodjTracks st) (currentAutoDJIndex st) = Some t ->
  resume (AwaitFetch t) FetchRejected st
  = Some (AwaitFetch t,
          log (LogPlaying (title t)) (log LogAutoDJError st)).
Proof.
  intros L N P. simpl. unfold afterTrack, loopHead. simpl.
  rewrite L. simpl.
  assert (T : autodjTracks st <> []).
  { intros E. unfold pick in P. rewrite E in P. simpl in P.
    destruct (currentAutoDJIndex st); discriminate P. }
  rewrite (length_nonempty _ T), (length_nonempty _ N).
  unfold pick in P. rewrite P. reflexivity.
Qed.

(** X19: the loop never skips a track it cannot fetch.  While [isLive] is
    false and a listener is registered, every rejected fetch of the track at
    the cursor is followed at once by a new fetch of the same track: after
    any number of rejections in a row the loop is fetching that track again,
    the cursor has not moved and no sink has been written. *)
Theorem failing_track_stalls_rotation (t : Track) (n : nat) :
  forall st,
    isLive st = false ->
    listeners st <> [] ->
    pick (autodjTracks st) (currentAutoDJIndex st) = Some t ->
    exists st',
      run (List.repeat (Settle FetchRejected) n) (AwaitFetch t, st)
      = Some (AwaitFetch t, st')
      /\ currentAutoDJIndex st' = currentAutoDJIndex st
      /\ listeners st' = listeners st
      /\ autodjTracks st' = autodjTracks st
      /\ List.length (console st') = List.length (console st) + 2 * n.
Proof.
  induction n as [|n IH]; intros st L N P.
  - exists st. simpl. repeat split. lia.
  - destruct (IH (log (LogPlaying (title t)) (log LogAutoDJError st)) L N P)
      as (st' & R & C & Ls & T & K).
    exists st'. cbn [List.repeat run step].
    rewrite (rejected_fetch_retries t st L N P).
    split; [exact R|]. simpl in C, Ls, T, K.
    repeat split; try assumption.
    rewrite K, !List.length_app. simpl. lia.
Qed.

Lemma failing_track_stalls_rotation_witness :
  exists st',
    run (List.repeat (Settle FetchRejected) 3) (AwaitFetch trackA, rotation_AB)
    = Some (AwaitFetch trackA, st')
    /\ currentAutoDJIndex st' = 0.
Proof.
  destruct (failing_track_stalls_rotation trackA 3 rotation_AB)
    as (st' & R & C & _); [reflexivity | discriminate | reflexivity |].
  exists st'. split; [exact R | exact C].
Defined.
